(** * Contact-list management of the create-buyer page

    A shallow embedding of the handlers of
    [src/app/dashboard/buyer-management/create-buyer/page.tsx]
    ([addContact], [removeContact], [setPrimaryContact], [handleSubmit])
    as functions on the component state, and the properties of the
    contact list that follow from them. *)

From Stdlib Require Import String Ascii List Bool Arith NArith Lia.
Import ListNotations.

Local Open Scope N_scope.
Local Open Scope list_scope.

(** ** JavaScript strings

    A JavaScript string is a sequence of UTF-16 code units.  Nothing below
    depends on the bound 65535, so a code unit is an [N]. *)

Definition jsstring := list N.

(** A string literal of the source (ASCII only in this file). *)
Definition lit (s : string) : jsstring :=
  map N_of_ascii (list_ascii_of_string s).

(** [===] on strings compares the code units. *)
Fixpoint jseqb (a b : jsstring) : bool :=
  match a, b with
  | [], [] => true
  | x :: a', y :: b' => (x =? y) && jseqb a' b'
  | _, _ => false
  end.

(** The truth value of a string: only the empty string is falsy. *)
Definition truthy_string (s : jsstring) : bool :=
  match s with
  | [] => false
  | _ :: _ => true
  end.

(** ECMAScript WhiteSpace and LineTerminator code points.  Both [\s] in a
    regular expression and [String.prototype.trim] use exactly this set. *)
Definition is_space (c : N) : bool :=
  (c =? 9) || (c =? 10) || (c =? 11) || (c =? 12) || (c =? 13) ||
  (c =? 32) || (c =? 160) || (c =? 5760) ||
  ((8192 <=? c) && (c <=? 8202)) ||
  (c =? 8232) || (c =? 8233) || (c =? 8239) || (c =? 8287) ||
  (c =? 12288) || (c =? 65279).

Fixpoint trimStart (s : jsstring) : jsstring :=
  match s with
  | [] => []
  | c :: s' => if is_space c then trimStart s' else s
  end.

Definition trimEnd (s : jsstring) : jsstring :=
  rev (trimStart (rev s)).

(** [s.trim()] *)
Definition trim (s : jsstring) : jsstring :=
  trimEnd (trimStart s).

(** ** Regular expressions

    The fragment of the regular expressions the page uses: character
    classes, concatenation and repetition, matched against the whole
    string (the patterns are anchored with [^] and [$] and carry no
    flags).  Matching is by derivatives. *)

Module Regex.

Inductive t : Type :=
| Empty : t                       (* no string *)
| Eps : t                         (* the empty string *)
| Class : (N -> bool) -> t        (* one code unit of a class *)
| Seq : t -> t -> t
| Alt : t -> t -> t
| Star : t -> t.

(** [r+] *)
Definition Plus (r : t) : t := Seq r (Star r).

(** A literal code unit. *)
Definition Char (a : ascii) : t := Class (fun c => c =? N_of_ascii a).

Fixpoint nullable (r : t) : bool :=
  match r with
  | Empty => false
  | Eps => true
  | Class _ => false
  | Seq a b => nullable a && nullable b
  | Alt a b => nullable a || nullable b
  | Star _ => true
  end.

Fixpoint deriv (c : N) (r : t) : t :=
  match r with
  | Empty => Empty
  | Eps => Empty
  | Class p => if p c then Eps else Empty
  | Seq a b =>
      if nullable a then Alt (Seq (deriv c a) b) (deriv c b)
      else Seq (deriv c a) b
  | Alt a b => Alt (deriv c a) (deriv c b)
  | Star a => Seq (deriv c a) (Star a)
  end.

(** [/^r$/.test(s)] *)
Fixpoint test (r : t) (s : jsstring) : bool :=
  match s with
  | [] => nullable r
  | c :: s' => test (deriv c r) s'
  end.

(** A regular expression that denotes no string, decided on its shape. *)
Fixpoint dead (r : t) : bool :=
  match r with
  | Empty => true
  | Eps => false
  | Class _ => false
  | Seq a b => dead a || dead b
  | Alt a b => dead a && dead b
  | Star _ => false
  end.

(** Every class of [r] is included in [P]. *)
Fixpoint classes_in (P : N -> bool) (r : t) : Prop :=
  match r with
  | Empty => True
  | Eps => True
  | Class p => forall c, p c = true -> P c = true
  | Seq a b => classes_in P a /\ classes_in P b
  | Alt a b => classes_in P a /\ classes_in P b
  | Star a => classes_in P a
  end.

End Regex.

(** [[^\s@]] *)
Definition not_space_or_at (c : N) : bool :=
  negb (is_space c || (c =? N_of_ascii "@"%char)).

(** [const emailRegex = /^[^\s@]+@[^\s@]+\.[^\s@]+$/;] *)
Definition emailRegex : Regex.t :=
  Regex.Seq (Regex.Plus (Regex.Class not_space_or_at))
  (Regex.Seq (Regex.Char "@")
  (Regex.Seq (Regex.Plus (Regex.Class not_space_or_at))
  (Regex.Seq (Regex.Char ".")
             (Regex.Plus (Regex.Class not_space_or_at))))).

(** ** Data model *)

(** [interface ContactDetails]; [isPrimary?: boolean] is [None] when the
    property is absent ([undefined]). *)
Record ContactDetails : Type := {
  name : jsstring;
  email : jsstring;
  phoneNumber : jsstring;
  isPrimary : option bool
}.

(** The truth value of an optional boolean. *)
Definition truthy (b : option bool) : bool :=
  match b with
  | Some true => true
  | _ => false
  end.

(** [{ ...c, isPrimary: b }] *)
Definition with_isPrimary (b : bool) (c : ContactDetails) : ContactDetails :=
  {| name := name c; email := email c; phoneNumber := phoneNumber c;
     isPrimary := Some b |}.

(** The scalar fields of the buyer ([formData]). *)
Module FormData.
Record t : Type := {
  name : jsstring;
  abn : jsstring;
  officeAddress : jsstring;
  email : jsstring;
  phoneNumber : jsstring;
  accountNumber : jsstring
}.
End FormData.

(** [const newBuyer: Buyer = { ...formData, contacts: contacts }] *)
Record Buyer : Type := {
  fields : FormData.t;
  buyer_contacts : list ContactDetails
}.

(** The three [useState] cells of the component. *)
Record State : Type := {
  formData : FormData.t;
  contacts : list ContactDetails;
  currentContact : ContactDetails
}.

(** What a handler sends to its collaborators: the notification sink
    ([toast.error], [toast.success]) and the creation request
    ([createBuyerMutation.mutate]). *)
Inductive Effect : Type :=
| toast_error (msg : string)
| toast_success (msg : string)
| mutate (newBuyer : Buyer).

Definition emptyContact : ContactDetails :=
  {| name := []; email := []; phoneNumber := []; isPrimary := Some false |}.

Definition setContacts (l : list ContactDetails) (st : State) : State :=
  {| formData := formData st; contacts := l;
     currentContact := currentContact st |}.

Definition setCurrentContact (c : ContactDetails) (st : State) : State :=
  {| formData := formData st; contacts := contacts st; currentContact := c |}.

(** The state when the form mounts. *)
Definition initialState : State :=
  {| formData := {| FormData.name := []; FormData.abn := [];
                    FormData.officeAddress := []; FormData.email := [];
                    FormData.phoneNumber := []; FormData.accountNumber := [] |};
     contacts := [];
     currentContact := emptyContact |}.

(** The messages of the validation errors of [addContact]. *)
Definition name_required : string := "Contact name is required".
Definition email_required : string := "Contact email is required".
Definition phone_required : string := "Contact phone number is required".
Definition invalid_email : string := "Please enter a valid email address".
Definition duplicate_name : string := "Contact name already exists".
Definition duplicate_email : string := "Contact email already exists".

(** [updatedContacts[0].isPrimary = true] *)
Definition set_head_primary (l : list ContactDetails) : list ContactDetails :=
  match l with
  | [] => []
  | c :: l' => with_isPrimary true c :: l'
  end.

(** Number of entries with [isPrimary = true]. *)
Definition count_primary (l : list ContactDetails) : nat :=
  length (filter (fun c => truthy (isPrimary c)) l).

(** The single-primary invariant of the contact list. *)
Definition single_primary (l : list ContactDetails) : Prop :=
  count_primary l = match l with [] => 0%nat | _ :: _ => 1%nat end.

(** ** Handlers *)

(** [const removeContact = (nameToRemove: string) => ...] *)
Definition removeContact (nameToRemove : jsstring) (st : State)
  : State * list Effect :=
  let updatedContacts :=
    filter (fun c => negb (jseqb (name c) nameToRemove)) (contacts st) in
  let removedContact :=
    find (fun c => jseqb (name c) nameToRemove) (contacts st) in
  let updatedContacts :=
    if truthy (match removedContact with
               | Some c => isPrimary c
               | None => None
               end)
       && (0 <? length updatedContacts)%nat
    then set_head_primary updatedContacts
    else updatedContacts in
  (setContacts updatedContacts st, []).

(** [const setPrimaryContact = (contactName: string) => ...] *)
Definition setPrimaryContact (contactName : jsstring) (st : State)
  : State * list Effect :=
  (setContacts
     (map (fun c => with_isPrimary (jseqb (name c) contactName) c)
          (contacts st))
     st,
   [toast_success "Primary contact updated"]).

(** [const handleSubmit = async (e: React.FormEvent) => ...]; the handler
    has no [await], it runs to its end in one step. *)
Definition handleSubmit (st : State) : State * list Effect :=
  if (length (contacts st) =? 0)%nat then
    (st, [toast_error "Please add at least one contact"])
  else if negb (truthy_string (FormData.name (formData st)))
       || negb (truthy_string (FormData.abn (formData st)))
       || negb (truthy_string (FormData.officeAddress (formData st)))
       || negb (truthy_string (FormData.email (formData st)))
       || negb (truthy_string (FormData.phoneNumber (formData st))) then
    (st, [toast_error "Please fill in all required fields"])
  else if negb (Regex.test emailRegex (FormData.email (formData st))) then
    (st, [toast_error "Please enter a valid email address"])
  else
    (st, [mutate {| fields := formData st; buyer_contacts := contacts st |}]).

Section WithToLowerCase.

(** [String.prototype.toLowerCase]: the Unicode case mapping is not
    reproduced; the handlers are defined, and their properties hold, for
    any function in its place. *)
Variable toLowerCase : jsstring -> jsstring.

(** [const addContact = () => ...] *)
Definition addContact (st : State) : State * list Effect :=
  let cur := currentContact st in
  if negb (truthy_string (trim (name cur))) then
    (st, [toast_error name_required])
  else if negb (truthy_string (trim (email cur))) then
    (st, [toast_error email_required])
  else if negb (truthy_string (trim (phoneNumber cur))) then
    (st, [toast_error phone_required])
  else if negb (Regex.test emailRegex (email cur)) then
    (st, [toast_error invalid_email])
  else if existsb (fun c => jseqb (name c) (trim (name cur))) (contacts st) then
    (st, [toast_error duplicate_name])
  else if existsb
            (fun c => jseqb (toLowerCase (trim (email c)))
                            (toLowerCase (trim (email cur))))
            (contacts st) then
    (st, [toast_error duplicate_email])
  else
    let newContact :=
      {| name := trim (name cur);
         email := trim (email cur);
         phoneNumber := trim (phoneNumber cur);
         isPrimary := Some (truthy (isPrimary cur)) |} in
    let updatedContacts :=
      if truthy (isPrimary newContact)
      then map (with_isPrimary false) (contacts st)
      else contacts st in
    let newContact :=
      if (length (contacts st) =? 0)%nat
      then with_isPrimary true newContact
      else newContact in
    ({| formData := formData st;
        contacts := newContact :: updatedContacts;
        currentContact := emptyContact |},
     [toast_success "Contact added successfully"]).

(** ** Sequences of operations *)

(** One call of the contact-list manager; [Add] carries the candidate
    the user has entered in the contact form. *)
Inductive Op : Type :=
| Add (candidate : ContactDetails)
| Remove (n : jsstring)
| SetPrimary (n : jsstring).

Definition step (st : State) (op : Op) : State :=
  match op with
  | Add candidate => fst (addContact (setCurrentContact candidate st))
  | Remove n => fst (removeContact n st)
  | SetPrimary n => fst (setPrimaryContact n st)
  end.

Definition run (ops : list Op) (st : State) : State :=
  fold_left step ops st.

(** Every [SetPrimary] of the sequence names an entry that is in the list
    when the call is made, as the "Set as Primary" button of an entry
    does. *)
Fixpoint targets_listed (ops : list Op) (st : State) : bool :=
  match ops with
  | [] => true
  | op :: ops' =>
      match op with
      | SetPrimary n => existsb (fun c => jseqb (name c) n) (contacts st)
      | _ => true
      end && targets_listed ops' (step st op)
  end.

End WithToLowerCase.

(** [toLowerCase] on strings of ASCII code units, for the worked
    examples. *)
Definition toLowerCaseASCII (s : jsstring) : jsstring :=
  map (fun c => if (65 <=? c) && (c <=? 90) then c + 32 else c) s.

(** A candidate written with literals. *)
Definition contact (n e p : string) (b : bool) : ContactDetails :=
  {| name := lit n; email := lit e; phoneNumber := lit p;
     isPrimary := Some b |}.

(** ** Vocabulary of the properties *)

(** The string holds no white space. *)
Definition no_space (s : jsstring) : Prop :=
  Forall (fun c => is_space c = false) s.

(** The entry a candidate is normalized to: trimmed [name], [email] and
    [phoneNumber], with the given flag. *)
Definition normalized (candidate : ContactDetails) (b : bool) : ContactDetails :=
  {| name := trim (name candidate);
     email := trim (email candidate);
     phoneNumber := trim (phoneNumber candidate);
     isPrimary := Some b |}.

(** The candidate passes the four field checks of [addContact]. *)
Definition valid_candidate (c : ContactDetails) : bool :=
  truthy_string (trim (name c)) && truthy_string (trim (email c)) &&
  truthy_string (trim (phoneNumber c)) && Regex.test emailRegex (email c).

(** What identifies an entry, its flag left out. *)
Definition identity (c : ContactDetails) : jsstring * jsstring * jsstring :=
  (name c, email c, phoneNumber c).

(** The entries [removeContact] keeps. *)
Definition keeps (n : jsstring) (c : ContactDetails) : bool :=
  negb (jseqb (name c) n).

(** The list invariant the operations maintain: distinct names and a
    single primary. *)
Definition list_inv (l : list ContactDetails) : Prop :=
  NoDup (map name l) /\ single_primary l.

(** The scalar fields [handleSubmit] lets through. *)
Definition valid_form (fd : FormData.t) : bool :=
  truthy_string (FormData.name fd) && truthy_string (FormData.abn fd) &&
  truthy_string (FormData.officeAddress fd) &&
  truthy_string (FormData.email fd) &&
  truthy_string (FormData.phoneNumber fd) &&
  Regex.test emailRegex (FormData.email fd).

(** ** The other handlers and the events of the page *)

(** The [name] attribute of the inputs that call [handleChange]. *)
Inductive FormField : Type :=
| field_name | field_officeAddress | field_abn
| field_email | field_phoneNumber | field_accountNumber.

(** The [name] attribute of the inputs that call [handleContactChange]. *)
Inductive ContactField : Type :=
| contact_name | contact_email | contact_phoneNumber.

Definition setFormData (fd : FormData.t) (st : State) : State :=
  {| formData := fd; contacts := contacts st;
     currentContact := currentContact st |}.

(** [const handleChange = (e) => setFormData((prev) => ({ ...prev, [name]: value }))] *)
Definition handleChange (f : FormField) (value : jsstring) (st : State) : State :=
  let prev := formData st in
  setFormData
    {| FormData.name :=
         match f with field_name => value | _ => FormData.name prev end;
       FormData.abn :=
         match f with field_abn => value | _ => FormData.abn prev end;
       FormData.officeAddress :=
         match f with
         | field_officeAddress => value
         | _ => FormData.officeAddress prev
         end;
       FormData.email :=
         match f with field_email => value | _ => FormData.email prev end;
       FormData.phoneNumber :=
         match f with
         | field_phoneNumber => value
         | _ => FormData.phoneNumber prev
         end;
       FormData.accountNumber :=
         match f with
         | field_accountNumber => value
         | _ => FormData.accountNumber prev
         end |}
    st.

(** [const handleContactChange = (e) => setCurrentContact((prev) => ({ ...prev, [name]: value }))] *)
Definition handleContactChange (f : ContactField) (value : jsstring) (st : State)
  : State :=
  let prev := currentContact st in
  setCurrentContact
    {| name := match f with contact_name => value | _ => name prev end;
       email := match f with contact_email => value | _ => email prev end;
       phoneNumber :=
         match f with
         | contact_phoneNumber => value
         | _ => phoneNumber prev
         end;
       isPrimary := isPrimary prev |}
    st.

(** [const handlePrimaryChange = (e) => setCurrentContact((prev) => ({ ...prev, isPrimary: e.target.checked }))] *)
Definition handlePrimaryChange (checked : bool) (st : State) : State :=
  let prev := currentContact st in
  setCurrentContact
    {| name := name prev; email := email prev;
       phoneNumber := phoneNumber prev; isPrimary := Some checked |}
    st.

(** What the user can do on the rendered page.  The list shows one
    "remove" button for every entry and one "Set as Primary" button for
    every entry that is not primary; the buttons are named by the position
    of their entry. *)
Inductive Event : Type :=
| InputForm (f : FormField) (value : jsstring)
| InputContact (f : ContactField) (value : jsstring)
| CheckPrimary (checked : bool)
| ClickAddContact
| ClickSetAsPrimary (index : nat)
| ClickRemove (index : nat)
| SubmitForm.

Section Events.

Variable toLowerCase : jsstring -> jsstring.

(** The handler an event runs; [None] when the page shows no such
    button. *)
Definition dispatch (st : State) (e : Event) : option (State * list Effect) :=
  match e with
  | InputForm f value => Some (handleChange f value st, [])
  | InputContact f value => Some (handleContactChange f value st, [])
  | CheckPrimary checked => Some (handlePrimaryChange checked st, [])
  | ClickAddContact => Some (addContact toLowerCase st)
  | ClickSetAsPrimary index =>
      match nth_error (contacts st) index with
      | Some c =>
          if truthy (isPrimary c) then None
          else Some (setPrimaryContact (name c) st)
      | None => None
      end
  | ClickRemove index =>
      match nth_error (contacts st) index with
      | Some c => Some (removeContact (name c) st)
      | None => None
      end
  | SubmitForm => Some (handleSubmit st)
  end.

(** A session: the events in turn, with everything the handlers sent. *)
Fixpoint play (evs : list Event) (st : State) : option (State * list Effect) :=
  match evs with
  | [] => Some (st, [])
  | e :: evs' =>
      match dispatch st e with
      | Some (st', sent) =>
          match play evs' st' with
          | Some (st'', sent') => Some (st'', sent ++ sent')
          | None => None
          end
      | None => None
      end
  end.

(** The key the duplicate-email check of [addContact] compares. *)
Definition email_key (c : ContactDetails) : jsstring :=
  toLowerCase (trim (email c)).

End Events.

(** ** The strings a regular expression denotes *)

Module RegexSem.
Import Regex.

Inductive matches : t -> jsstring -> Prop :=
| m_eps : matches Eps []
| m_class p c : p c = true -> matches (Class p) [c]
| m_seq a b s1 s2 :
    matches a s1 -> matches b s2 -> matches (Seq a b) (s1 ++ s2)
| m_alt_l a b s : matches a s -> matches (Alt a b) s
| m_alt_r a b s : matches b s -> matches (Alt a b) s
| m_star_nil a : matches (Star a) []
| m_star_app a s1 s2 :
    matches a s1 -> matches (Star a) s2 -> matches (Star a) (s1 ++ s2).

End RegexSem.

(** Every code unit of the string is in the class [[^\s@]]. *)
Definition plain (s : jsstring) : Prop :=
  Forall (fun c => not_space_or_at c = true) s.

(** The shape [local@domain.tld]: three non-empty parts free of white
    space and of [@], separated by [@] and by a dot (the middle part and
    the last part may hold further dots). *)
Definition email_shape (s : jsstring) : Prop :=
  exists a b c,
    s = a ++ lit "@" ++ b ++ lit "." ++ c /\
    a <> [] /\ b <> [] /\ c <> [] /\ plain a /\ plain b /\ plain c.

(** An entry as [addContact] stores it. *)
Definition well_formed (c : ContactDetails) : Prop :=
  trim (name c) = name c /\ name c <> [] /\
  trim (phoneNumber c) = phoneNumber c /\ phoneNumber c <> [] /\
  Regex.test emailRegex (email c) = true /\ trim (email c) = email c /\
  isPrimary c <> None.

(** What every list the operations build satisfies, whatever the calls:
    distinct names, at most one primary, entries as [addContact] stores
    them, and addresses that differ beyond letter case. *)
Definition sound (toLowerCase : jsstring -> jsstring)
  (l : list ContactDetails) : Prop :=
  NoDup (map name l) /\ (count_primary l <= 1)%nat /\
  Forall well_formed l /\ NoDup (map (email_key toLowerCase) l).

(** What a session on the page keeps: the single primary together with
    what every list satisfies. *)
Definition kept (toLowerCase : jsstring -> jsstring)
  (l : list ContactDetails) : Prop :=
  list_inv l /\ sound toLowerCase l.

(** A candidate that is valid in the words of the specification: name,
    email and phone number non-empty after trimming, and the trimmed email
    matching the pattern. *)
Definition spec_valid_candidate (c : ContactDetails) : bool :=
  truthy_string (trim (name c)) && truthy_string (trim (email c)) &&
  truthy_string (trim (phoneNumber c)) &&
  Regex.test emailRegex (trim (email c)).

(** Some entry of the list with that name has [isPrimary = true]: a
    removed entry was primary. *)
Definition removed_primary (n : jsstring) (l : list ContactDetails) : bool :=
  existsb (fun c => jseqb (name c) n && truthy (isPrimary c)) l.

(** ** Strings *)

Lemma jseqb_eq (a b : jsstring) : jseqb a b = true <-> a = b.
Proof.
  revert b; induction a as [|x a IH]; intros [|y b]; simpl;
    try (split; [discriminate | congruence]).
  - tauto.
  - rewrite andb_true_iff, N.eqb_eq, IH. split.
    + intros [-> ->]; reflexivity.
    + intros H; injection H as -> ->; auto.
Qed.

Lemma jseqb_refl (a : jsstring) : jseqb a a = true.
Proof. apply jseqb_eq; reflexivity. Qed.

Lemma jseqb_neq (a b : jsstring) : jseqb a b = false <-> a <> b.
Proof.
  rewrite <- jseqb_eq. destruct (jseqb a b); split; congruence.
Qed.

Lemma truthy_string_true (s : jsstring) : truthy_string s = true <-> s <> [].
Proof. destruct s; simpl; split; congruence. Qed.

Lemma trimStart_no_space (s : jsstring) : no_space s -> trimStart s = s.
Proof. intros H. destruct H as [|c s Hc _]; simpl; [|rewrite Hc]; reflexivity. Qed.

(** A string without white space is its own trim. *)
Lemma trim_no_space (s : jsstring) : no_space s -> trim s = s.
Proof.
  intros H. unfold trim, trimEnd.
  rewrite (trimStart_no_space s H), trimStart_no_space.
  - apply rev_involutive.
  - apply Forall_rev, H.
Qed.

(** ** Regular expressions *)

Module RegexFacts.
Import Regex.

Lemma dead_nullable (r : t) : dead r = true -> nullable r = false.
Proof.
  induction r; simpl; intros H; try discriminate; auto.
  - apply orb_true_iff in H. apply andb_false_iff. tauto.
  - apply andb_true_iff in H. apply orb_false_iff. tauto.
Qed.

Lemma dead_deriv (c : N) (r : t) : dead r = true -> dead (deriv c r) = true.
Proof.
  induction r; simpl; intros H; try discriminate; auto.
  - apply orb_true_iff in H. destruct H as [H | H].
    + rewrite (dead_nullable _ H). simpl. rewrite IHr1; auto.
    + destruct (nullable r1); simpl; rewrite H, ?IHr2, ?orb_true_r; auto.
  - apply andb_true_iff in H. destruct H. rewrite IHr1, IHr2; auto.
Qed.

Lemma dead_test (s : jsstring) : forall r, dead r = true -> test r s = false.
Proof.
  induction s as [|c s IH]; simpl; intros r H.
  - apply dead_nullable, H.
  - apply IH, dead_deriv, H.
Qed.

Lemma classes_in_deriv (P : N -> bool) (c : N) (r : t) :
  classes_in P r -> classes_in P (deriv c r).
Proof.
  induction r; simpl; intros H; auto.
  - destruct (b c); exact I.
  - destruct H. destruct (nullable r1); simpl; auto.
  - destruct H; auto.
Qed.

(** The derivative by a code unit outside every class is dead. *)
Lemma deriv_outside (P : N -> bool) (c : N) (r : t) :
  classes_in P r -> P c = false -> dead (deriv c r) = true.
Proof.
  intros H Hc. induction r; simpl in *; auto.
  - destruct (b c) eqn:E; [|reflexivity].
    apply H in E. congruence.
  - destruct H as [H1 H2].
    destruct (nullable r1); simpl; rewrite IHr1; auto.
  - destruct H as [H1 H2]. rewrite IHr1, IHr2; auto.
  - rewrite IHr; auto.
Qed.

(** A matched string consists of code units of the classes. *)
Lemma test_classes (P : N -> bool) (s : jsstring) :
  forall r, classes_in P r -> test r s = true ->
            Forall (fun c => P c = true) s.
Proof.
  induction s as [|c s IH]; simpl; intros r H Ht; constructor.
  - destruct (P c) eqn:E; [reflexivity|].
    rewrite (dead_test s _ (deriv_outside P c r H E)) in Ht. discriminate.
  - apply (IH (deriv c r)); [apply classes_in_deriv, H | exact Ht].
Qed.

End RegexFacts.

Lemma emailRegex_classes : Regex.classes_in (fun c => negb (is_space c)) emailRegex.
Proof.
  assert (A : forall c, not_space_or_at c = true -> negb (is_space c) = true).
  { intros c. unfold not_space_or_at. destruct (is_space c); simpl; auto. }
  assert (B : forall a c, is_space a = false ->
                          (c =? a) = true -> negb (is_space c) = true).
  { intros a c Ha Hc. apply N.eqb_eq in Hc. subst c. rewrite Ha. reflexivity. }
  simpl. repeat split; auto; intros c; apply B; reflexivity.
Qed.

(** An address the pattern accepts holds no white space. *)
Lemma emailRegex_no_space (s : jsstring) :
  Regex.test emailRegex s = true -> no_space s.
Proof.
  intros H. apply (RegexFacts.test_classes _ _ _ emailRegex_classes) in H.
  unfold no_space. rewrite Forall_forall in *. intros c Hc.
  apply H in Hc. destruct (is_space c); [discriminate | reflexivity].
Qed.

(** Hence trimming it changes nothing, and it is not empty. *)
Lemma emailRegex_trim (s : jsstring) :
  Regex.test emailRegex s = true -> trim s = s.
Proof. intros H. apply trim_no_space, emailRegex_no_space, H. Qed.

Lemma emailRegex_nonempty (s : jsstring) :
  Regex.test emailRegex s = true -> s <> [].
Proof. intros H ->. discriminate H. Qed.

(** ** Lists of contacts *)

Section ListFacts.

Implicit Types (l : list ContactDetails) (c : ContactDetails) (n : jsstring).

Lemma count_primary_cons c l :
  count_primary (c :: l) =
  ((if truthy (isPrimary c) then 1 else 0) + count_primary l)%nat.
Proof. unfold count_primary; simpl. destruct (truthy (isPrimary c)); reflexivity. Qed.

Lemma count_primary_clear l : count_primary (map (with_isPrimary false) l) = 0%nat.
Proof.
  induction l as [|c l IH]; [reflexivity|].
  simpl map. rewrite count_primary_cons, IH. reflexivity.
Qed.

Lemma names_clear b l : map name (map (with_isPrimary b) l) = map name l.
Proof. rewrite map_map. reflexivity. Qed.

Lemma existsb_name_false n l :
  existsb (fun c => jseqb (name c) n) l = false <-> ~ In n (map name l).
Proof.
  induction l as [|c l IH]; simpl; [tauto|].
  rewrite orb_false_iff, IH, jseqb_neq. tauto.
Qed.

Lemma existsb_name_true n l :
  existsb (fun c => jseqb (name c) n) l = true <-> In n (map name l).
Proof.
  induction l as [|c l IH]; simpl; [split; [discriminate | tauto]|].
  rewrite orb_true_iff, IH, jseqb_eq. tauto.
Qed.

Lemma not_in_names n l :
  ~ In n (map name l) <-> (forall c, In c l -> name c <> n).
Proof.
  rewrite in_map_iff. split.
  - intros H c Hc E. apply H. exists c; auto.
  - intros H (c & E & Hc). exact (H c Hc E).
Qed.

Lemma filter_absent n l : ~ In n (map name l) -> filter (keeps n) l = l.
Proof.
  induction l as [|c l IH]; simpl; intros H; [reflexivity|].
  unfold keeps at 1. destruct (jseqb (name c) n) eqn:E; simpl.
  - apply jseqb_eq in E. tauto.
  - rewrite IH; tauto.
Qed.

Lemma find_absent n l :
  ~ In n (map name l) -> find (fun c => jseqb (name c) n) l = None.
Proof.
  induction l as [|c l IH]; simpl; intros H; [reflexivity|].
  destruct (jseqb (name c) n) eqn:E.
  - apply jseqb_eq in E. tauto.
  - apply IH; tauto.
Qed.

Lemma names_filter_incl (f : ContactDetails -> bool) l x :
  In x (map name (filter f l)) -> In x (map name l).
Proof.
  rewrite !in_map_iff. intros (c & E & Hc).
  apply filter_In in Hc. exists c; tauto.
Qed.

Lemma NoDup_names_filter (f : ContactDetails -> bool) l :
  NoDup (map name l) -> NoDup (map name (filter f l)).
Proof.
  induction l as [|c l IH]; simpl; intros H; [constructor|].
  inversion H as [|? ? Hn Hl]; subst.
  destruct (f c); simpl; auto.
  constructor; auto. intros Hin. apply Hn. eapply names_filter_incl, Hin.
Qed.

Lemma names_set_head l : map name (set_head_primary l) = map name l.
Proof. destruct l; reflexivity. Qed.

Lemma count_set_head l :
  count_primary l = 0%nat -> l <> [] -> count_primary (set_head_primary l) = 1%nat.
Proof.
  destruct l as [|c l]; [congruence|]. intros H _. simpl.
  rewrite count_primary_cons in *. simpl.
  destruct (truthy (isPrimary c)); lia.
Qed.

(** With distinct names, removing a name removes the entry [find] returns,
    and nothing else. *)
Lemma count_primary_removed n l c :
  NoDup (map name l) ->
  find (fun c => jseqb (name c) n) l = Some c ->
  (count_primary (filter (keeps n) l) + (if truthy (isPrimary c) then 1 else 0)
   = count_primary l)%nat.
Proof.
  induction l as [|x l IH]; simpl; intros H Hf; [discriminate|].
  inversion H as [|? ? Hn Hl]; subst.
  unfold keeps at 1. destruct (jseqb (name x) n) eqn:E; simpl.
  - injection Hf as ->. apply jseqb_eq in E. rewrite <- E.
    rewrite filter_absent by assumption.
    rewrite count_primary_cons. lia.
  - rewrite !count_primary_cons. specialize (IH Hl Hf). lia.
Qed.

Lemma count_setPrimary_absent n l :
  ~ In n (map name l) ->
  count_primary (map (fun c => with_isPrimary (jseqb (name c) n) c) l) = 0%nat.
Proof.
  induction l as [|c l IH]; simpl; intros H; [reflexivity|].
  rewrite count_primary_cons, IH by tauto. simpl.
  destruct (jseqb (name c) n) eqn:E; [|reflexivity].
  apply jseqb_eq in E. tauto.
Qed.

Lemma count_setPrimary_listed n l :
  NoDup (map name l) -> In n (map name l) ->
  count_primary (map (fun c => with_isPrimary (jseqb (name c) n) c) l) = 1%nat.
Proof.
  induction l as [|c l IH]; simpl; intros H Hin; [tauto|].
  inversion H as [|? ? Hn Hl]; subst.
  rewrite count_primary_cons. simpl.
  destruct (jseqb (name c) n) eqn:E.
  - apply jseqb_eq in E. rewrite <- E.
    rewrite count_setPrimary_absent by assumption. reflexivity.
  - apply jseqb_neq in E. rewrite IH; tauto.
Qed.

End ListFacts.

(** ** The handlers *)

Section HandlerFacts.

Variable toLowerCase : jsstring -> jsstring.

Local Abbreviation addContact := (addContact toLowerCase).
Local Abbreviation step := (step toLowerCase).
Local Abbreviation run := (run toLowerCase).
Local Abbreviation targets_listed := (targets_listed toLowerCase).

(** The two outcomes of [addContact]: one of the six errors with the state
    as it was, or the new entry in front of the list. *)
Lemma addContact_cases (st : State) :
  (exists msg,
      In msg [name_required; email_required; phone_required;
              invalid_email; duplicate_name; duplicate_email] /\
      addContact st = (st, [toast_error msg])) \/
  (valid_candidate (currentContact st) = true /\
   existsb (fun c => jseqb (name c) (trim (name (currentContact st))))
           (contacts st) = false /\
   existsb (fun c => jseqb (toLowerCase (trim (email c)))
                           (toLowerCase (trim (email (currentContact st)))))
           (contacts st) = false /\
   let b := truthy (isPrimary (currentContact st))
            || (length (contacts st) =? 0)%nat in
   addContact st =
   ({| formData := formData st;
       contacts := normalized (currentContact st) b ::
                   (if b then map (with_isPrimary false) (contacts st)
                    else contacts st);
       currentContact := emptyContact |},
    [toast_success "Contact added successfully"])).
Proof.
  unfold addContact, valid_candidate.
  destruct (truthy_string (trim (name (currentContact st)))); simpl;
    [|left; eexists; split; [|reflexivity]; simpl; tauto].
  destruct (truthy_string (trim (email (currentContact st)))); simpl;
    [|left; eexists; split; [|reflexivity]; simpl; tauto].
  destruct (truthy_string (trim (phoneNumber (currentContact st)))); simpl;
    [|left; eexists; split; [|reflexivity]; simpl; tauto].
  destruct (Regex.test emailRegex (email (currentContact st))); simpl;
    [|left; eexists; split; [|reflexivity]; simpl; tauto].
  destruct (existsb _ (contacts st)); simpl;
    [left; eexists; split; [|reflexivity]; simpl; tauto|].
  destruct (existsb _ (contacts st)); simpl;
    [left; eexists; split; [|reflexivity]; simpl; tauto|].
  right. repeat split.
  destruct (contacts st) as [|c l]; destruct (truthy (isPrimary (currentContact st)));
    reflexivity.
Qed.

Lemma addContact_inv (st : State) :
  list_inv (contacts st) -> list_inv (contacts (fst (addContact st))).
Proof.
  intros [Hnd Hsp].
  destruct (addContact_cases st) as [(msg & _ & ->) | (_ & Hn & _ & ->)];
    [split; assumption|].
  simpl. apply existsb_name_false in Hn. split.
  - simpl. constructor.
    + destruct (_ || _); rewrite ?names_clear; exact Hn.
    + destruct (_ || _); rewrite ?names_clear; exact Hnd.
  - unfold single_primary in *. rewrite count_primary_cons. simpl.
    destruct (contacts st) as [|c l] eqn:El.
    + rewrite orb_true_r. reflexivity.
    + simpl (length _ =? 0)%nat. rewrite orb_false_r.
      destruct (truthy (isPrimary (currentContact st))).
      * rewrite count_primary_clear. reflexivity.
      * rewrite Hsp. reflexivity.
Qed.

Lemma removeContact_inv (n : jsstring) (st : State) :
  list_inv (contacts st) -> list_inv (contacts (fst (removeContact n st))).
Proof.
  intros [Hnd Hsp]. unfold removeContact. simpl.
  fold (keeps n).
  pose proof (NoDup_names_filter (keeps n) _ Hnd) as Hnd'.
  destruct (find _ (contacts st)) as [c|] eqn:Hf.
  - pose proof (count_primary_removed n _ c Hnd Hf) as Hc.
    assert (Hl : contacts st <> []) by (intros E; rewrite E in Hf; discriminate).
    unfold single_primary in Hsp.
    destruct (contacts st) as [|x l] eqn:El; [congruence|]. rewrite <- El in *.
    destruct (truthy (isPrimary c)) eqn:Ep.
    + simpl andb.
      destruct (filter (keeps n) (contacts st)) as [|y r] eqn:Er.
      * simpl. split; [constructor | reflexivity].
      * simpl (0 <? _)%nat. cbv iota. split.
        -- rewrite <- (names_set_head (y :: r)) in Hnd'. exact Hnd'.
        -- unfold single_primary.
           change (count_primary (set_head_primary (y :: r)) = 1%nat).
           apply count_set_head; [lia | congruence].
    + simpl andb. split; [exact Hnd'|]. unfold single_primary.
      destruct (filter (keeps n) (contacts st)) as [|y r] eqn:Er.
      * reflexivity.
      * lia.
  - simpl. split; [exact Hnd'|].
    rewrite filter_absent.
    + exact Hsp.
    + intros Hin. apply existsb_name_true in Hin.
      apply existsb_exists in Hin. destruct Hin as (c & Hc & E).
      apply (find_none _ _ Hf) in Hc. congruence.
Qed.

Lemma setPrimaryContact_inv (n : jsstring) (st : State) :
  existsb (fun c => jseqb (name c) n) (contacts st) = true ->
  list_inv (contacts st) -> list_inv (contacts (fst (setPrimaryContact n st))).
Proof.
  intros Hin [Hnd Hsp]. apply existsb_name_true in Hin. simpl. split.
  - rewrite map_map. exact Hnd.
  - unfold single_primary. rewrite count_setPrimary_listed by assumption.
    destruct (contacts st); [contradiction | reflexivity].
Qed.

Lemma run_inv (ops : list Op) :
  forall st, list_inv (contacts st) -> targets_listed ops st = true ->
             list_inv (contacts (run ops st)).
Proof.
  induction ops as [|op ops IH]; simpl; intros st Hinv Ht; [exact Hinv|].
  apply andb_true_iff in Ht. destruct Ht as [Hop Ht].
  apply IH; [|exact Ht].
  destruct op as [candidate | n | n]; simpl.
  - apply (addContact_inv (setCurrentContact candidate st)), Hinv.
  - apply removeContact_inv, Hinv.
  - apply setPrimaryContact_inv; assumption.
Qed.

End HandlerFacts.

Lemma find_unique (l : list ContactDetails) (c : ContactDetails) :
  NoDup (map name l) -> In c l ->
  find (fun x => jseqb (name x) (name c)) l = Some c.
Proof.
  induction l as [|x l IH]; simpl; intros H Hin; [tauto|].
  inversion H as [|? ? Hn Hl]; subst.
  destruct (jseqb (name x) (name c)) eqn:E.
  - destruct Hin as [-> | Hin]; [reflexivity|].
    apply jseqb_eq in E. exfalso. apply Hn. rewrite E. apply in_map, Hin.
  - destruct Hin as [-> | Hin]; [rewrite jseqb_refl in E; discriminate|].
    apply IH; assumption.
Qed.

(** The check of the address subsumes the check that it is not blank. *)
Lemma valid_candidate_iff (c : ContactDetails) :
  valid_candidate c = true <->
  trim (name c) <> [] /\ trim (phoneNumber c) <> [] /\
  Regex.test emailRegex (email c) = true.
Proof.
  unfold valid_candidate.
  rewrite !andb_true_iff, !truthy_string_true. split; [tauto|].
  intros (Hn & Hp & He). repeat split; auto.
  rewrite (emailRegex_trim _ He). apply emailRegex_nonempty, He.
Qed.

(** An address [addContact] accepts is stored as it was entered: trimming
    it changes nothing. *)
Lemma addContact_accepted_email_trimmed
  (toLowerCase : jsstring -> jsstring) (st : State) :
  snd (addContact toLowerCase st) = [toast_success "Contact added successfully"] ->
  trim (email (currentContact st)) = email (currentContact st).
Proof.
  intros H.
  destruct (addContact_cases toLowerCase st)
    as [(msg & _ & E) | (Hv & _)].
  - rewrite E in H. discriminate H.
  - apply emailRegex_trim. apply valid_candidate_iff in Hv. tauto.
Qed.

(** What [addContact] does with the address: the pattern is tested on the
    address as entered, not on its trim. *)
Lemma addContact_invalid_email_iff (toLowerCase : jsstring -> jsstring) (st : State) :
  trim (name (currentContact st)) <> [] ->
  trim (email (currentContact st)) <> [] ->
  trim (phoneNumber (currentContact st)) <> [] ->
  (addContact toLowerCase st = (st, [toast_error invalid_email]) <->
   Regex.test emailRegex (email (currentContact st)) = false).
Proof.
  intros Hn He Hp. apply truthy_string_true in Hn, He, Hp.
  unfold addContact. rewrite Hn, He, Hp. simpl.
  destruct (Regex.test emailRegex (email (currentContact st))); simpl.
  - split; [|discriminate].
    destruct (existsb _ _); [discriminate|].
    destruct (existsb _ _); discriminate.
  - tauto.
Qed.

(** ** The contact list *)

(** C1, as amended.  From the empty list, after any finite sequence of
    addContact (accepted or rejected), removeContact and setPrimary calls
    in which every setPrimary names an entry that is in the list at that
    moment, the number of entries with isPrimary = true is 0 when the
    list is empty and exactly 1 when it is not. *)
Theorem single_primary_reachable
  (toLowerCase : jsstring -> jsstring) (ops : list Op) :
  targets_listed toLowerCase ops initialState = true ->
  single_primary (contacts (run toLowerCase ops initialState)).
Proof.
  intros H. apply (run_inv toLowerCase ops initialState); [|exact H].
  split; [constructor | reflexivity].
Qed.

Lemma single_primary_reachable_witness :
  let ops := [Add (contact "Alice" "a@x.com" "111" false);
              Add (contact "Bob" "b@x.com" "222" true);
              Add (contact "Bob" "bad-email" "333" true);
              SetPrimary (lit "Alice");
              Remove (lit "Alice");
              Remove (lit "Zed")] in
  targets_listed toLowerCaseASCII ops initialState = true /\
  single_primary (contacts (run toLowerCaseASCII ops initialState)).
Proof.
  split; [reflexivity | apply single_primary_reachable; reflexivity].
Defined.

(** C1, as stated, fails: setPrimary with a name that is not in the list
    leaves a non-empty list with no primary. *)
Lemma single_primary_unlisted_target :
  let ops := [Add (contact "Alice" "a@x.com" "111" false);
              SetPrimary (lit "Zed")] in
  contacts (run toLowerCaseASCII ops initialState)
  = [contact "Alice" "a@x.com" "111" false] /\
  ~ single_primary (contacts (run toLowerCaseASCII ops initialState)).
Proof. split; [reflexivity | discriminate]. Qed.

(** C2.  The code at the input where it departs from the claim: the
    candidate's fields are non-empty after trimming, the list is empty (no
    duplicate), the trimmed address matches the pattern, and addContact
    reports the invalid-email error and leaves the state as it was. *)
Theorem addContact_untrimmed_email_rejected (toLowerCase : jsstring -> jsstring) :
  let st := setCurrentContact (contact "Alice" " a@x.com" "111" false)
                              initialState in
  trim (name (currentContact st)) <> [] /\
  trim (email (currentContact st)) <> [] /\
  trim (phoneNumber (currentContact st)) <> [] /\
  Regex.test emailRegex (trim (email (currentContact st))) = true /\
  addContact toLowerCase st = (st, [toast_error invalid_email]).
Proof. repeat split; discriminate. Qed.

(** C3.  The code at an input where it departs from the claim.  The
    candidate is valid (non-empty trimmed fields, trimmed email matching
    the pattern) and the list is empty, yet addContact reports the
    invalid-email error and the list stays empty instead of holding the
    one primary entry: the pattern is tested on the email as entered.  The
    same holds with a no-break space (U+00A0) in place of the space. *)
Theorem addContact_first_valid_rejected (toLowerCase : jsstring -> jsstring) :
  let st := setCurrentContact (contact "Alice" " a@x.com" "111" false)
                              initialState in
  let st' := setCurrentContact
               {| name := lit "Alice"; email := 160 :: lit "a@x.com";
                  phoneNumber := lit "111"; isPrimary := Some false |}
               initialState in
  (contacts st = [] /\
   spec_valid_candidate (currentContact st) = true /\
   addContact toLowerCase st = (st, [toast_error invalid_email]) /\
   contacts (fst (addContact toLowerCase st)) = []) /\
  (contacts st' = [] /\
   spec_valid_candidate (currentContact st') = true /\
   addContact toLowerCase st' = (st', [toast_error invalid_email]) /\
   contacts (fst (addContact toLowerCase st')) = []).
Proof. repeat split. Qed.

(** X19.  A candidate that passes the field checks of addContact (the
    email tested as entered), added to the empty list, is accepted and
    gives a one-element list whose entry has isPrimary = true, whatever
    flag was requested. *)
Theorem addContact_first_is_primary
  (toLowerCase : jsstring -> jsstring) (st : State) :
  contacts st = [] ->
  valid_candidate (currentContact st) = true ->
  addContact toLowerCase st =
  ({| formData := formData st;
      contacts := [normalized (currentContact st) true];
      currentContact := emptyContact |},
   [toast_success "Contact added successfully"]).
Proof.
  intros Hl Hv. unfold valid_candidate in Hv.
  repeat (apply andb_true_iff in Hv; destruct Hv as [Hv ?]).
  unfold addContact. rewrite Hv, Hl.
  repeat match goal with H : _ = true |- _ => rewrite H; clear H end.
  simpl. destruct (truthy (isPrimary (currentContact st))); reflexivity.
Qed.

Lemma addContact_first_is_primary_witness :
  addContact toLowerCaseASCII
    (setCurrentContact (contact " Alice " "a@x.com" "111" false) initialState)
  = ({| formData := formData initialState;
        contacts := [contact "Alice" "a@x.com" "111" true];
        currentContact := emptyContact |},
     [toast_success "Contact added successfully"]).
Proof.
  apply (addContact_first_is_primary toLowerCaseASCII
           (setCurrentContact (contact " Alice " "a@x.com" "111" false)
                              initialState));
    reflexivity.
Defined.

(** C4.  Whenever addContact accepts the candidate, the new list is the
    normalized entry (name, email and phoneNumber trimmed) in front of the
    existing entries; every existing entry has isPrimary forced to false
    when the new entry is primary, and the existing entries are unchanged
    otherwise.  The new entry is primary when the candidate asked for it or
    the list was empty. *)
Theorem addContact_prepends
  (toLowerCase : jsstring -> jsstring) (st : State) :
  snd (addContact toLowerCase st) = [toast_success "Contact added successfully"] ->
  let newEntry :=
    normalized (currentContact st)
               (truthy (isPrimary (currentContact st))
                || (length (contacts st) =? 0)%nat) in
  contacts (fst (addContact toLowerCase st)) =
  newEntry :: (if truthy (isPrimary newEntry)
               then map (with_isPrimary false) (contacts st)
               else contacts st).
Proof.
  intros H.
  destruct (addContact_cases toLowerCase st)
    as [(msg & _ & E) | (_ & _ & _ & E)]; rewrite E in *.
  - discriminate H.
  - simpl. destruct (_ || _); reflexivity.
Qed.

Lemma addContact_prepends_witness :
  let st := {| formData := formData initialState;
               contacts := [contact "Alice" "a@x.com" "111" true];
               currentContact := contact "Bob " "b@x.com" " 222" true |} in
  snd (addContact toLowerCaseASCII st)
  = [toast_success "Contact added successfully"] /\
  contacts (fst (addContact toLowerCaseASCII st))
  = [contact "Bob" "b@x.com" "222" true; contact "Alice" "a@x.com" "111" false].
Proof.
  split; [reflexivity|].
  apply (addContact_prepends toLowerCaseASCII
           {| formData := formData initialState;
              contacts := [contact "Alice" "a@x.com" "111" true];
              currentContact := contact "Bob " "b@x.com" " 222" true |}).
  reflexivity.
Defined.

(** C5.  Whenever addContact reports a validation error, the error is one
    of the six enumerated ones and the contact list (indeed the whole
    state) is left as it was. *)
Theorem addContact_error_unchanged
  (toLowerCase : jsstring -> jsstring) (st : State) (msg : string) :
  snd (addContact toLowerCase st) = [toast_error msg] ->
  In msg [name_required; email_required; phone_required;
          invalid_email; duplicate_name; duplicate_email] /\
  contacts (fst (addContact toLowerCase st)) = contacts st /\
  fst (addContact toLowerCase st) = st.
Proof.
  intros H.
  destruct (addContact_cases toLowerCase st)
    as [(msg' & Hin & E) | (_ & _ & _ & E)]; rewrite E in *.
  - simpl in H. injection H as ->. auto.
  - discriminate H.
Qed.

Lemma addContact_error_unchanged_witness :
  let st := {| formData := formData initialState;
               contacts := [contact "Alice" "a@x.com" "111" true];
               currentContact := contact "Bob" "bad-email" "222" true |} in
  snd (addContact toLowerCaseASCII st) = [toast_error invalid_email] /\
  contacts (fst (addContact toLowerCaseASCII st))
  = [contact "Alice" "a@x.com" "111" true].
Proof.
  split; [reflexivity|].
  apply (addContact_error_unchanged toLowerCaseASCII
           {| formData := formData initialState;
              contacts := [contact "Alice" "a@x.com" "111" true];
              currentContact := contact "Bob" "bad-email" "222" true |}
           invalid_email).
  reflexivity.
Defined.

(** C6, as amended.  For a candidate that passes the field checks and whose
    trimmed name is the name of no existing entry, if some existing entry's
    trimmed, lower-cased email equals the candidate's trimmed, lower-cased
    email, addContact reports the duplicate-email error. *)
Theorem addContact_duplicate_email
  (toLowerCase : jsstring -> jsstring) (st : State) (c : ContactDetails) :
  valid_candidate (currentContact st) = true ->
  (forall c', In c' (contacts st) ->
              name c' <> trim (name (currentContact st))) ->
  In c (contacts st) ->
  toLowerCase (trim (email c))
  = toLowerCase (trim (email (currentContact st))) ->
  addContact toLowerCase st = (st, [toast_error duplicate_email]).
Proof.
  intros Hv Hn Hin He. unfold valid_candidate in Hv.
  repeat (apply andb_true_iff in Hv; destruct Hv as [Hv ?]).
  apply not_in_names, existsb_name_false in Hn.
  unfold addContact. rewrite Hv, Hn.
  repeat match goal with H : _ = true |- _ => rewrite H; clear H end.
  simpl.
  replace (existsb _ (contacts st)) with true; [reflexivity|].
  symmetry. apply existsb_exists. exists c. split; [exact Hin|].
  apply jseqb_eq, He.
Qed.

Lemma addContact_duplicate_email_witness :
  let st := {| formData := formData initialState;
               contacts := [contact "Alice" "a@x.com" "111" true];
               currentContact := contact "Bob" "A@X.Com" "222" false |} in
  addContact toLowerCaseASCII st = (st, [toast_error duplicate_email]).
Proof.
  apply (addContact_duplicate_email toLowerCaseASCII
           {| formData := formData initialState;
              contacts := [contact "Alice" "a@x.com" "111" true];
              currentContact := contact "Bob" "A@X.Com" "222" false |}
           (contact "Alice" "a@x.com" "111" true)).
  - reflexivity.
  - intros c' [<- | []]. discriminate.
  - left. reflexivity.
  - reflexivity.
Defined.

(** C6, as stated, fails: when the candidate's name is in the list as well,
    the duplicate-name error is the one reported. *)
Lemma duplicate_name_reported_first :
  let st := {| formData := formData initialState;
               contacts := [contact "Bob" "b@x.com" "111" true];
               currentContact := contact "Bob" "B@X.COM" "222" false |} in
  valid_candidate (currentContact st) = true /\
  (exists c, In c (contacts st) /\
             toLowerCaseASCII (trim (email c))
             = toLowerCaseASCII (trim (email (currentContact st)))) /\
  addContact toLowerCaseASCII st = (st, [toast_error duplicate_name]) /\
  addContact toLowerCaseASCII st <> (st, [toast_error duplicate_email]).
Proof.
  repeat split.
  - eexists. split; [left; reflexivity | reflexivity].
  - discriminate.
Qed.

Lemma removed_primary_find (n : jsstring) (l : list ContactDetails) :
  NoDup (map name l) ->
  removed_primary n l
  = truthy (match find (fun x => jseqb (name x) n) l with
            | Some c => isPrimary c
            | None => None
            end).
Proof.
  unfold removed_primary.
  induction l as [|x l IH]; simpl; intros Hnd; [reflexivity|].
  inversion Hnd as [|? ? Hx Hl]; subst.
  destruct (jseqb (name x) n) eqn:E; simpl.
  - apply jseqb_eq in E. subst n.
    replace (existsb _ l) with false; [apply orb_false_r|].
    symmetry. apply not_true_is_false. intros H.
    apply existsb_exists in H. destruct H as (c & Hc & H).
    apply andb_true_iff in H. destruct H as [H _]. apply jseqb_eq in H.
    apply Hx. rewrite <- H. apply in_map, Hc.
  - apply IH, Hl.
Qed.

(** C7.  On every list with distinct names (as every list the operations
    build is) and for every name, removeContact removes exactly the
    entries whose name equals the given name and keeps the others, flags
    included, in their order; when a removed entry had isPrimary = true
    the head of what is left is made primary, and nothing else changes.
    So if a removed entry had isPrimary = true and the resulting list is
    non-empty, the entry at its head has isPrimary = true. *)
Theorem removeContact_removes_named (n : jsstring) (st : State) :
  NoDup (map name (contacts st)) ->
  let l := contacts st in
  let r := contacts (fst (removeContact n st)) in
  r = (if removed_primary n l then set_head_primary (filter (keeps n) l)
       else filter (keeps n) l) /\
  (forall c,
      In c l -> name c = n -> isPrimary c = Some true -> r <> [] ->
      exists h t, r = h :: t /\ isPrimary h = Some true).
Proof.
  intros Hnd l r.
  assert (Hr : r = if removed_primary n l
                   then set_head_primary (filter (keeps n) l)
                   else filter (keeps n) l).
  { unfold r, removeContact. simpl. fold (keeps n). fold l.
    rewrite (removed_primary_find n l Hnd).
    destruct (truthy _); simpl; [|reflexivity].
    destruct (filter (keeps n) l); reflexivity. }
  split; [exact Hr|].
  intros c Hin Hn Hp Hne.
  assert (Hrp : removed_primary n l = true).
  { apply existsb_exists. exists c. split; [exact Hin|].
    rewrite Hn, jseqb_refl, Hp. reflexivity. }
  rewrite Hrp in Hr.
  destruct (filter (keeps n) l) as [|y t]; simpl in Hr; [congruence|].
  exists (with_isPrimary true y), t. auto.
Qed.

Lemma removeContact_removes_named_witness :
  let st := setContacts [contact "Bob" "b@x.com" "222" true;
                         contact "Alice" "a@x.com" "111" false] initialState in
  contacts (fst (removeContact (lit "Bob") st))
  = [contact "Alice" "a@x.com" "111" true] /\
  exists h t, contacts (fst (removeContact (lit "Bob") st)) = h :: t /\
              isPrimary h = Some true.
Proof.
  split; [reflexivity|].
  destruct (removeContact_removes_named (lit "Bob")
              (setContacts [contact "Bob" "b@x.com" "222" true;
                            contact "Alice" "a@x.com" "111" false]
                           initialState)) as (_ & H).
  - simpl. repeat constructor; simpl; intuition discriminate.
  - apply (H (contact "Bob" "b@x.com" "222" true)).
    + left. reflexivity.
    + reflexivity.
    + reflexivity.
    + discriminate.
Defined.

(** C8.  setPrimary never reports an error; it keeps the entries and their
    order, and sets isPrimary to true exactly on the entries whose name
    equals the given name and to false on all others.  When no entry has
    that name the result has no primary. *)
Theorem setPrimaryContact_marks_named (n : jsstring) (st : State) :
  let l := contacts st in
  let r := contacts (fst (setPrimaryContact n st)) in
  snd (setPrimaryContact n st) = [toast_success "Primary contact updated"] /\
  map identity r = map identity l /\
  (forall c, In c r ->
             (name c = n -> isPrimary c = Some true) /\
             (name c <> n -> isPrimary c = Some false)) /\
  ((forall c, In c l -> name c <> n) -> length r = length l /\ count_primary r = 0%nat).
Proof.
  intros l r. unfold r. simpl.
  split; [reflexivity|]. split; [rewrite map_map; reflexivity|]. split.
  - intros c Hc. apply in_map_iff in Hc. destruct Hc as (x & <- & _).
    simpl. split; intros E.
    + apply jseqb_eq in E. rewrite E. reflexivity.
    + apply jseqb_neq in E. rewrite E. reflexivity.
  - intros H. split; [apply length_map|].
    apply count_setPrimary_absent, not_in_names, H.
Qed.

Lemma setPrimaryContact_marks_named_witness :
  let st := setContacts [contact "Bob" "b@x.com" "222" true;
                         contact "Alice" "a@x.com" "111" false] initialState in
  contacts (fst (setPrimaryContact (lit "Zed") st))
  = [contact "Bob" "b@x.com" "222" false;
     contact "Alice" "a@x.com" "111" false] /\
  count_primary (contacts (fst (setPrimaryContact (lit "Zed") st))) = 0%nat.
Proof.
  split; [reflexivity|].
  destruct (setPrimaryContact_marks_named (lit "Zed")
              (setContacts [contact "Bob" "b@x.com" "222" true;
                            contact "Alice" "a@x.com" "111" false]
                           initialState)) as (_ & _ & _ & H).
  apply H. intros c [<- | [<- | []]]; discriminate.
Defined.

(** C9.  With an empty contact list, submit reports an error and forwards
    nothing; whatever it forwards is the buyer fields together with the
    contact list, and the list is then non-empty; and with a non-empty list
    and scalar fields that pass their checks it does forward them. *)
Theorem handleSubmit_requires_contact (st : State) :
  (contacts st = [] ->
   handleSubmit st = (st, [toast_error "Please add at least one contact"])) /\
  (forall b, In (mutate b) (snd (handleSubmit st)) ->
             (1 <= length (contacts st))%nat /\
             b = {| fields := formData st; buyer_contacts := contacts st |}) /\
  (contacts st <> [] -> valid_form (formData st) = true ->
   handleSubmit st =
   (st, [mutate {| fields := formData st; buyer_contacts := contacts st |}])).
Proof.
  unfold handleSubmit, valid_form. repeat split.
  - intros ->. reflexivity.
  - destruct (contacts st); simpl in *; [|lia].
    destruct H as [H | []]. discriminate H.
  - destruct (contacts st); simpl in H.
    + destruct H as [H | []]. discriminate H.
    + destruct (_ || _); simpl in H; [destruct H as [H | []]; discriminate H|].
      destruct (Regex.test _ _); simpl in H; destruct H as [H | []];
        [injection H as <-; reflexivity | discriminate H].
  - intros Hne Hv.
    repeat (apply andb_true_iff in Hv; destruct Hv as [Hv ?]).
    destruct (contacts st); [congruence|]. simpl.
    rewrite Hv.
    repeat match goal with H : _ = true |- _ => rewrite H; clear H end.
    reflexivity.
Qed.

Lemma handleSubmit_requires_contact_witness :
  let fd := {| FormData.name := lit "Acme"; FormData.abn := lit "51824753556";
               FormData.officeAddress := lit "1 Main St";
               FormData.email := lit "office@acme.com";
               FormData.phoneNumber := lit "0400000000";
               FormData.accountNumber := [] |} in
  let l := [contact "Alice" "a@x.com" "111" true] in
  handleSubmit {| formData := fd; contacts := []; currentContact := emptyContact |}
  = ({| formData := fd; contacts := []; currentContact := emptyContact |},
     [toast_error "Please add at least one contact"]) /\
  handleSubmit {| formData := fd; contacts := l; currentContact := emptyContact |}
  = ({| formData := fd; contacts := l; currentContact := emptyContact |},
     [mutate {| fields := fd; buyer_contacts := l |}]).
Proof.
  split.
  - apply handleSubmit_requires_contact. reflexivity.
  - apply handleSubmit_requires_contact; [discriminate | reflexivity].
Defined.

(** C10.  Removing a name that no entry of the list has returns the list
    (and the whole state) as it was. *)
Theorem removeContact_absent (n : jsstring) (st : State) :
  (forall c, In c (contacts st) -> name c <> n) ->
  contacts (fst (removeContact n st)) = contacts st /\
  removeContact n st = (st, []).
Proof.
  intros H. apply not_in_names in H.
  assert (E : removeContact n st = (st, [])).
  { unfold removeContact. rewrite (find_absent n _ H). simpl.
    fold (keeps n). rewrite (filter_absent n _ H).
    destruct st; reflexivity. }
  rewrite E. auto.
Qed.

Lemma removeContact_absent_witness :
  let st := setContacts [contact "Bob" "b@x.com" "222" true;
                         contact "Alice" "a@x.com" "111" false] initialState in
  contacts (fst (removeContact (lit "bob") st)) = contacts st.
Proof.
  apply (removeContact_absent (lit "bob")
           (setContacts [contact "Bob" "b@x.com" "222" true;
                         contact "Alice" "a@x.com" "111" false] initialState)).
  intros c [<- | [<- | []]]; discriminate.
Defined.

(** ** The pattern of the addresses *)

Module RegexSemFacts.
Import Regex RegexSem.

Lemma matches_nil_nullable (r : t) (s : jsstring) :
  matches r s -> s = [] -> nullable r = true.
Proof.
  induction 1; intros E; simpl; auto; try discriminate.
  - apply app_eq_nil in E. destruct E. rewrite IHmatches1, IHmatches2; auto.
  - rewrite IHmatches; auto.
  - rewrite IHmatches; auto using orb_true_r.
Qed.

Lemma nullable_matches_nil (r : t) : nullable r = true -> matches r [].
Proof.
  induction r; simpl; intros H; try discriminate.
  - constructor.
  - apply andb_true_iff in H. destruct H.
    change (@nil N) with (@nil N ++ []). constructor; auto.
  - apply orb_true_iff in H. destruct H; [apply m_alt_l | apply m_alt_r]; auto.
  - constructor.
Qed.

Lemma matches_deriv (r : t) (s0 : jsstring) :
  matches r s0 -> forall c s, s0 = c :: s -> matches (deriv c r) s.
Proof.
  induction 1; intros x w E; simpl.
  - discriminate.
  - injection E as -> <-. rewrite H. constructor.
  - destruct s1 as [|y s1]; simpl in E.
    + rewrite (matches_nil_nullable a [] H eq_refl).
      apply m_alt_r. apply IHmatches2, E.
    + injection E as -> <-.
      destruct (nullable a); [apply m_alt_l|]; constructor; auto.
  - apply m_alt_l. auto.
  - apply m_alt_r. auto.
  - discriminate.
  - destruct s1 as [|y s1]; simpl in E.
    + apply IHmatches2, E.
    + injection E as -> <-. constructor; auto.
Qed.

Lemma deriv_matches (c : N) (r : t) :
  forall s, matches (deriv c r) s -> matches r (c :: s).
Proof.
  induction r; simpl; intros s H.
  - inversion H.
  - inversion H.
  - destruct (b c) eqn:E; inversion H; subst. constructor. exact E.
  - destruct (nullable r1) eqn:En.
    + inversion H as [| | | ? ? ? H1 | ? ? ? H1 | |]; subst.
      * inversion H1; subst.
        change (c :: s1 ++ s2) with ((c :: s1) ++ s2). constructor; auto.
      * change (c :: s) with ([] ++ c :: s).
        constructor; auto using nullable_matches_nil.
    + inversion H; subst.
      change (c :: s1 ++ s2) with ((c :: s1) ++ s2). constructor; auto.
  - inversion H; subst; [apply m_alt_l | apply m_alt_r]; auto.
  - inversion H; subst.
    change (c :: s1 ++ s2) with ((c :: s1) ++ s2). constructor; auto.
Qed.

(** The matcher decides the strings the expression denotes. *)
Lemma test_matches (s : jsstring) :
  forall r, test r s = true <-> matches r s.
Proof.
  induction s as [|c s IH]; simpl; intros r.
  - split; [apply nullable_matches_nil|].
    intros H. apply (matches_nil_nullable r [] H eq_refl).
  - rewrite IH. split; [apply deriv_matches|].
    intros H. apply (matches_deriv r _ H c s eq_refl).
Qed.

Lemma matches_seq (a b : t) (s : jsstring) :
  matches (Seq a b) s <->
  exists s1 s2, s = s1 ++ s2 /\ matches a s1 /\ matches b s2.
Proof.
  split.
  - intros H. inversion H; subst. eauto.
  - intros (s1 & s2 & -> & H1 & H2). constructor; auto.
Qed.

Lemma matches_class (p : N -> bool) (s : jsstring) :
  matches (Class p) s <-> exists c, s = [c] /\ p c = true.
Proof.
  split.
  - intros H. inversion H; subst. eauto.
  - intros (c & -> & H). constructor. exact H.
Qed.

Lemma matches_star_class (p : N -> bool) (s : jsstring) :
  matches (Star (Class p)) s <-> Forall (fun c => p c = true) s.
Proof.
  split.
  - intros H. remember (Star (Class p)) as r eqn:Er.
    induction H; try discriminate; injection Er as ->.
    + constructor.
    + inversion H; subst. constructor; auto.
  - induction 1 as [|c s Hc _ IH]; [constructor|].
    change (c :: s) with ([c] ++ s). constructor; [constructor|]; auto.
Qed.

Lemma matches_plus_class (p : N -> bool) (s : jsstring) :
  matches (Plus (Class p)) s <-> s <> [] /\ Forall (fun c => p c = true) s.
Proof.
  unfold Plus. rewrite matches_seq. split.
  - intros (s1 & s2 & -> & H1 & H2).
    apply matches_class in H1. destruct H1 as (c & -> & Hc).
    apply matches_star_class in H2. split; [discriminate|].
    constructor; auto.
  - intros [Hne H]. destruct H as [|c s Hc H]; [congruence|].
    exists [c], s. split; [reflexivity|]. split.
    + constructor. exact Hc.
    + apply matches_star_class, H.
Qed.

Lemma matches_char (a : ascii) (s : jsstring) :
  matches (Char a) s <-> s = [N_of_ascii a].
Proof.
  unfold Char. rewrite matches_class. split.
  - intros (c & -> & H). apply N.eqb_eq in H. congruence.
  - intros ->. eexists. split; [reflexivity | apply N.eqb_refl].
Qed.

End RegexSemFacts.

(** X5.  The pattern of addContact and handleSubmit accepts exactly the
    strings local@domain.tld: three non-empty parts without white space
    and without [@], the first followed by [@] and the second by a dot. *)
Theorem emailRegex_accepts_shape (s : jsstring) :
  Regex.test emailRegex s = true <-> email_shape s.
Proof.
  rewrite RegexSemFacts.test_matches. unfold emailRegex, email_shape, plain.
  split.
  - intros H.
    apply RegexSemFacts.matches_seq in H. destruct H as (a & r1 & -> & Ha & H).
    apply RegexSemFacts.matches_seq in H. destruct H as (x & r2 & -> & Hx & H).
    apply RegexSemFacts.matches_seq in H. destruct H as (b & r3 & -> & Hb & H).
    apply RegexSemFacts.matches_seq in H. destruct H as (y & c & -> & Hy & Hc).
    apply RegexSemFacts.matches_char in Hx, Hy. subst x y.
    apply RegexSemFacts.matches_plus_class in Ha, Hb, Hc.
    exists a, b, c. tauto.
  - intros (a & b & c & -> & Ha & Hb & Hc & Pa & Pb & Pc).
    repeat (apply RegexSem.m_seq);
      try (apply RegexSemFacts.matches_plus_class; auto);
      apply RegexSemFacts.matches_char; reflexivity.
Qed.

(** ** Trimming *)

Lemma trimStart_idempotent (s : jsstring) : trimStart (trimStart s) = trimStart s.
Proof.
  induction s as [|c s IH]; simpl; [reflexivity|].
  destruct (is_space c) eqn:E; [exact IH|]. simpl. rewrite E. reflexivity.
Qed.

Lemma trimStart_head (s : jsstring) (c : N) (t : jsstring) :
  trimStart s = c :: t -> is_space c = false.
Proof.
  induction s as [|x s IH]; simpl; [discriminate|].
  destruct (is_space x) eqn:E; [exact IH|]. congruence.
Qed.

Lemma trimStart_app_last (a : jsstring) (c : N) :
  is_space c = false -> trimStart (a ++ [c]) = trimStart a ++ [c].
Proof.
  intros Hc. induction a as [|x a IH]; simpl.
  - rewrite Hc. reflexivity.
  - destruct (is_space x); [exact IH | reflexivity].
Qed.

(** Trimming a trimmed string changes nothing. *)
Lemma trim_idempotent (s : jsstring) : trim (trim s) = trim s.
Proof.
  unfold trim, trimEnd.
  assert (H : trimStart (rev (trimStart (rev (trimStart s))))
              = rev (trimStart (rev (trimStart s)))).
  { destruct (trimStart s) as [|c t] eqn:E; [reflexivity|].
    apply trimStart_head in E. simpl rev.
    rewrite (trimStart_app_last _ _ E), rev_app_distr. simpl. rewrite E.
    reflexivity. }
  rewrite H, rev_involutive, trimStart_idempotent. reflexivity.
Qed.

(** ** What the operations keep, whatever the calls *)

Section SoundFacts.

Variable toLowerCase : jsstring -> jsstring.

Local Abbreviation key := (email_key toLowerCase).
Local Abbreviation sound := (sound toLowerCase).

Lemma NoDup_map_filter {A : Type} (g : ContactDetails -> A)
  (f : ContactDetails -> bool) (l : list ContactDetails) :
  NoDup (map g l) -> NoDup (map g (filter f l)).
Proof.
  induction l as [|c l IH]; simpl; intros H; [constructor|].
  inversion H as [|? ? Hn Hl]; subst.
  destruct (f c); simpl; auto.
  constructor; auto. intros Hin. apply Hn.
  apply in_map_iff in Hin. destruct Hin as (x & E & Hx).
  apply filter_In in Hx. apply in_map_iff. exists x. tauto.
Qed.

Lemma count_primary_filter_le (f : ContactDetails -> bool)
  (l : list ContactDetails) :
  (count_primary (filter f l) <= count_primary l)%nat.
Proof.
  induction l as [|c l IH]; simpl; [lia|].
  destruct (f c); rewrite !count_primary_cons; lia.
Qed.

Lemma well_formed_flag (b : bool) (c : ContactDetails) :
  well_formed c -> well_formed (with_isPrimary b c).
Proof. unfold well_formed. simpl. intuition discriminate. Qed.

Lemma map_flag_name (f : ContactDetails -> bool) (l : list ContactDetails) :
  map name (map (fun c => with_isPrimary (f c) c) l) = map name l.
Proof. rewrite map_map. reflexivity. Qed.

Lemma map_flag_key (f : ContactDetails -> bool) (l : list ContactDetails) :
  map key (map (fun c => with_isPrimary (f c) c) l) = map key l.
Proof. rewrite map_map. reflexivity. Qed.

Lemma map_flag_well_formed (f : ContactDetails -> bool)
  (l : list ContactDetails) :
  Forall well_formed l ->
  Forall well_formed (map (fun c => with_isPrimary (f c) c) l).
Proof.
  intros H. apply Forall_map. revert H. apply Forall_impl.
  intros c. apply well_formed_flag.
Qed.

Lemma set_head_key (l : list ContactDetails) :
  map key (set_head_primary l) = map key l.
Proof. destruct l; reflexivity. Qed.

Lemma set_head_well_formed (l : list ContactDetails) :
  Forall well_formed l -> Forall well_formed (set_head_primary l).
Proof.
  destruct l as [|c l]; simpl; [auto|].
  intros H. inversion H; subst. constructor; auto using well_formed_flag.
Qed.

Lemma count_set_head_le (l : list ContactDetails) :
  count_primary l = 0%nat -> (count_primary (set_head_primary l) <= 1)%nat.
Proof.
  destruct l as [|c l]; simpl; [lia|].
  rewrite !count_primary_cons. simpl. lia.
Qed.

Lemma existsb_key_false (k : jsstring) (l : list ContactDetails) :
  existsb (fun c => jseqb (toLowerCase (trim (email c))) k) l = false <->
  ~ In k (map key l).
Proof.
  induction l as [|c l IH]; simpl; [tauto|].
  rewrite orb_false_iff, IH, jseqb_neq. unfold email_key. tauto.
Qed.

Lemma normalized_well_formed (c : ContactDetails) (b : bool) :
  valid_candidate c = true -> well_formed (normalized c b).
Proof.
  intros H. apply valid_candidate_iff in H. destruct H as (Hn & Hp & He).
  unfold well_formed. simpl.
  rewrite !trim_idempotent, (emailRegex_trim _ He).
  repeat split; auto. discriminate.
Qed.

Lemma addContact_sound (st : State) :
  sound (contacts st) -> sound (contacts (fst (addContact toLowerCase st))).
Proof.
  intros (Hnd & Hc & Hwf & Hk).
  destruct (addContact_cases toLowerCase st)
    as [(msg & _ & ->) | (Hv & Hn & He & ->)];
    [repeat split; assumption|].
  apply existsb_name_false in Hn. apply existsb_key_false in He.
  simpl. set (b := _ || _).
  assert (El : exists f,
             (if b then map (with_isPrimary false) (contacts st)
              else contacts st)
             = map (fun c => with_isPrimary (f c) c) (contacts st)
               \/ (if b then map (with_isPrimary false) (contacts st)
                   else contacts st) = contacts st).
  { exists (fun _ => false). destruct b; [left | right]; reflexivity. }
  destruct El as (f & El).
  repeat split.
  - simpl. constructor.
    + destruct El as [-> | ->]; rewrite ?map_flag_name; exact Hn.
    + destruct El as [-> | ->]; rewrite ?map_flag_name; exact Hnd.
  - rewrite count_primary_cons. simpl. destruct b.
    + rewrite count_primary_clear. lia.
    + lia.
  - constructor.
    + apply normalized_well_formed, Hv.
    + destruct El as [-> | ->]; auto using map_flag_well_formed.
  - simpl. unfold email_key at 1. simpl. rewrite trim_idempotent.
    constructor.
    + destruct El as [-> | ->]; rewrite ?map_flag_key; exact He.
    + destruct El as [-> | ->]; rewrite ?map_flag_key; exact Hk.
Qed.

Lemma removeContact_sound (n : jsstring) (st : State) :
  sound (contacts st) -> sound (contacts (fst (removeContact n st))).
Proof.
  intros (Hnd & Hc & Hwf & Hk). unfold removeContact. simpl. fold (keeps n).
  assert (Hf : sound (filter (keeps n) (contacts st))).
  { repeat split.
    - apply NoDup_map_filter, Hnd.
    - pose proof (count_primary_filter_le (keeps n) (contacts st)). lia.
    - rewrite Forall_forall in *. intros c Hin. apply filter_In in Hin.
      apply Hwf; tauto.
    - apply NoDup_map_filter, Hk. }
  destruct (find _ (contacts st)) as [c|] eqn:Ef; [|exact Hf].
  destruct (truthy (isPrimary c)) eqn:Ep; [|exact Hf]. simpl andb.
  destruct (0 <? length (filter (keeps n) (contacts st)))%nat; [|exact Hf].
  pose proof (count_primary_removed n _ c Hnd Ef) as Hr. rewrite Ep in Hr.
  destruct Hf as (Hnd' & _ & Hwf' & Hk'). repeat split.
  - rewrite names_set_head. exact Hnd'.
  - apply count_set_head_le. lia.
  - apply set_head_well_formed, Hwf'.
  - rewrite set_head_key. exact Hk'.
Qed.

Lemma setPrimaryContact_sound (n : jsstring) (st : State) :
  sound (contacts st) -> sound (contacts (fst (setPrimaryContact n st))).
Proof.
  intros (Hnd & Hc & Hwf & Hk). simpl. repeat split.
  - rewrite map_flag_name. exact Hnd.
  - destruct (existsb (fun c => jseqb (name c) n) (contacts st)) eqn:E.
    + apply existsb_name_true in E.
      rewrite count_setPrimary_listed by assumption. lia.
    + apply existsb_name_false in E.
      rewrite count_setPrimary_absent by assumption. lia.
  - apply map_flag_well_formed, Hwf.
  - rewrite map_flag_key. exact Hk.
Qed.

Lemma run_sound (ops : list Op) :
  forall st, sound (contacts st) -> sound (contacts (run toLowerCase ops st)).
Proof.
  induction ops as [|op ops IH]; simpl; intros st H; [exact H|].
  apply IH. destruct op as [candidate | n | n]; simpl.
  - apply (addContact_sound (setCurrentContact candidate st)), H.
  - apply removeContact_sound, H.
  - apply setPrimaryContact_sound, H.
Qed.

Lemma sound_nil : sound [].
Proof.
  repeat split; simpl; try constructor.
  unfold count_primary. simpl. lia.
Qed.

End SoundFacts.

(** ** Helper facts on the handlers *)

Lemma removeContact_absent_eq (n : jsstring) (st : State) :
  ~ In n (map name (contacts st)) -> removeContact n st = (st, []).
Proof.
  intros H. unfold removeContact. rewrite (find_absent n _ H). simpl.
  fold (keeps n). rewrite (filter_absent n _ H). destruct st; reflexivity.
Qed.

Lemma filter_keeps_absent (n : jsstring) (l : list ContactDetails) :
  ~ In n (map name (filter (keeps n) l)).
Proof.
  rewrite in_map_iff. intros (c & E & Hc). apply filter_In in Hc.
  destruct Hc as [_ Hc]. unfold keeps in Hc. rewrite <- E, jseqb_refl in Hc.
  discriminate.
Qed.

(** The outcomes of [handleSubmit]: an error, or the request. *)
Lemma handleSubmit_cases (st : State) :
  (exists msg, handleSubmit st = (st, [toast_error msg]) /\
               (contacts st = [] \/ valid_form (formData st) = false)) \/
  (contacts st <> [] /\ valid_form (formData st) = true /\
   handleSubmit st =
   (st, [mutate {| fields := formData st; buyer_contacts := contacts st |}])).
Proof.
  unfold handleSubmit, valid_form.
  destruct (contacts st) as [|c l]; simpl; [left; eauto|].
  destruct (truthy_string (FormData.name (formData st))); simpl;
    [|left; eauto].
  destruct (truthy_string (FormData.abn (formData st))); simpl;
    [|left; eauto].
  destruct (truthy_string (FormData.officeAddress (formData st))); simpl;
    [|left; eauto].
  destruct (truthy_string (FormData.email (formData st))); simpl;
    [|left; eauto].
  destruct (truthy_string (FormData.phoneNumber (formData st))); simpl;
    [|left; eauto].
  destruct (Regex.test emailRegex (FormData.email (formData st))); simpl;
    [|left; eauto].
  right. repeat split. discriminate.
Qed.

Lemma valid_form_iff (fd : FormData.t) :
  valid_form fd = true <->
  FormData.name fd <> [] /\ FormData.abn fd <> [] /\
  FormData.officeAddress fd <> [] /\ FormData.phoneNumber fd <> [] /\
  Regex.test emailRegex (FormData.email fd) = true.
Proof.
  unfold valid_form. rewrite !andb_true_iff, !truthy_string_true.
  split; [tauto|]. intros (? & ? & ? & ? & He).
  repeat split; auto using emailRegex_nonempty.
Qed.

Section SessionFacts.

Variable toLowerCase : jsstring -> jsstring.

Local Abbreviation kept := (kept toLowerCase).

Lemma nth_error_listed (l : list ContactDetails) (i : nat) (c : ContactDetails) :
  nth_error l i = Some c ->
  existsb (fun x => jseqb (name x) (name c)) l = true.
Proof.
  intros H. apply nth_error_In in H. apply existsb_name_true, in_map, H.
Qed.

Lemma dispatch_kept (st st' : State) (e : Event) (sent : list Effect) :
  dispatch toLowerCase st e = Some (st', sent) ->
  kept (contacts st) ->
  kept (contacts st') /\
  (forall b, In (mutate b) sent ->
             buyer_contacts b = contacts st /\ contacts st <> []).
Proof.
  intros H [Hi Hs]. destruct e; simpl in H.
  - injection H as <- <-. simpl. split; [split; assumption | tauto].
  - injection H as <- <-. simpl. split; [split; assumption | tauto].
  - injection H as <- <-. simpl. split; [split; assumption | tauto].
  - injection H as H.
    assert (E1 : st' = fst (addContact toLowerCase st)) by (rewrite H; reflexivity).
    assert (E2 : sent = snd (addContact toLowerCase st)) by (rewrite H; reflexivity).
    subst st' sent. clear H. split.
    + split.
      * apply addContact_inv, Hi.
      * apply addContact_sound, Hs.
    + intros b Hb.
      destruct (addContact_cases toLowerCase st)
        as [(msg & _ & E) | (_ & _ & _ & E)]; rewrite E in Hb;
        destruct Hb as [Hb | []]; discriminate Hb.
  - destruct (nth_error (contacts st) index) as [c|] eqn:En; [|discriminate].
    destruct (truthy (isPrimary c)); [discriminate|].
    injection H as <- <-. split.
    + split.
      * apply setPrimaryContact_inv; [eapply nth_error_listed, En | exact Hi].
      * apply setPrimaryContact_sound, Hs.
    + intros b [Hb | []]. discriminate Hb.
  - destruct (nth_error (contacts st) index) as [c|] eqn:En; [|discriminate].
    injection H as <- <-. split.
    + split; [apply removeContact_inv, Hi | apply removeContact_sound, Hs].
    + intros b [].
  - injection H as H.
    assert (E1 : st' = fst (handleSubmit st)) by (rewrite H; reflexivity).
    assert (E2 : sent = snd (handleSubmit st)) by (rewrite H; reflexivity).
    subst st' sent. clear H. split.
    + destruct (handleSubmit_cases st) as [(msg & -> & _) | (_ & _ & ->)];
        split; assumption.
    + intros b Hb.
      destruct (handleSubmit_cases st) as [(msg & E & _) | (Hne & _ & E)];
        rewrite E in Hb; destruct Hb as [Hb | []].
      * discriminate Hb.
      * injection Hb as <-. auto.
Qed.

Lemma play_kept (evs : list Event) :
  forall st st' sent,
    play toLowerCase evs st = Some (st', sent) ->
    kept (contacts st) ->
    kept (contacts st') /\
    (forall b, In (mutate b) sent ->
               kept (buyer_contacts b) /\ buyer_contacts b <> []).
Proof.
  induction evs as [|e evs IH]; simpl; intros st st' sent H Hk.
  - injection H as <- <-. split; [exact Hk | intros b []].
  - destruct (dispatch toLowerCase st e) as [[st1 sent1]|] eqn:Ed;
      [|discriminate].
    destruct (play toLowerCase evs st1) as [[st2 sent2]|] eqn:Ep;
      [|discriminate].
    injection H as <- <-.
    destruct (dispatch_kept _ _ _ _ Ed Hk) as [Hk1 Hm1].
    destruct (IH _ _ _ Ep Hk1) as [Hk2 Hm2].
    split; [exact Hk2|].
    intros b Hb. apply in_app_or in Hb. destruct Hb as [Hb | Hb].
    + destruct (Hm1 b Hb) as [-> Hne]. auto.
    + apply Hm2, Hb.
Qed.

End SessionFacts.

(** ** Further properties of the page *)

(** X1.  After any finite sequence of addContact, removeContact and
    setPrimary calls on a list that starts empty, with any arguments, no
    two entries of the list have the same name. *)
Theorem names_distinct_after_any_calls
  (toLowerCase : jsstring -> jsstring) (ops : list Op) (st0 : State) :
  contacts st0 = [] ->
  NoDup (map name (contacts (run toLowerCase ops st0))).
Proof.
  intros H0.
  apply (run_sound toLowerCase ops st0). rewrite H0. apply sound_nil.
Qed.

Lemma names_distinct_after_any_calls_witness :
  NoDup (map name (contacts (run toLowerCaseASCII
    [Add (contact "Alice" "a@x.com" "111" false);
     Add (contact " Alice " "alice@x.com" "222" true);
     Add (contact "Bob" "b@x.com" "333" true);
     SetPrimary (lit "Zed")] initialState))).
Proof. apply names_distinct_after_any_calls. reflexivity. Defined.

(** X2.  After any such sequence, with any arguments (a setPrimary with an
    unknown name included), at most one entry has isPrimary = true. *)
Theorem at_most_one_primary_after_any_calls
  (toLowerCase : jsstring -> jsstring) (ops : list Op) (st0 : State) :
  contacts st0 = [] ->
  (count_primary (contacts (run toLowerCase ops st0)) <= 1)%nat.
Proof.
  intros H0.
  apply (run_sound toLowerCase ops st0). rewrite H0. apply sound_nil.
Qed.

Lemma at_most_one_primary_after_any_calls_witness :
  (count_primary (contacts (run toLowerCaseASCII
    [Add (contact "Alice" "a@x.com" "111" false);
     Add (contact "Bob" "b@x.com" "333" true);
     SetPrimary (lit "Zed");
     Add (contact "Carol" "c@x.com" "444" false);
     Remove (lit "Bob")] initialState)) <= 1)%nat.
Proof. apply at_most_one_primary_after_any_calls. reflexivity. Defined.

(** X3.  After any such sequence every entry of the list is as addContact
    stores it: name and phone number are non-empty and equal to their
    trim, the email matches the pattern and holds no white space to trim,
    and isPrimary is a boolean (never absent). *)
Theorem entries_well_formed_after_any_calls
  (toLowerCase : jsstring -> jsstring) (ops : list Op) (st0 : State)
  (c : ContactDetails) :
  contacts st0 = [] ->
  In c (contacts (run toLowerCase ops st0)) ->
  well_formed c.
Proof.
  intros H0 Hin.
  assert (H : sound toLowerCase (contacts (run toLowerCase ops st0))).
  { apply run_sound. rewrite H0. apply sound_nil. }
  destruct H as (_ & _ & Hwf & _).
  rewrite Forall_forall in Hwf. apply Hwf, Hin.
Qed.

Lemma entries_well_formed_after_any_calls_witness :
  well_formed (contact "Bob" "b@x.com" "333" false).
Proof.
  apply (entries_well_formed_after_any_calls toLowerCaseASCII
           [Add (contact "Alice" "a@x.com" "111" false);
            Add {| name := lit " Bob "; email := lit "b@x.com";
                   phoneNumber := lit "333 "; isPrimary := None |}]
           initialState).
  - reflexivity.
  - left. reflexivity.
Defined.

(** X4.  After any such sequence no two entries have emails that are equal
    after lower-casing; in particular no two entries have the same
    email. *)
Theorem emails_distinct_after_any_calls
  (toLowerCase : jsstring -> jsstring) (ops : list Op) (st0 : State) :
  contacts st0 = [] ->
  NoDup (map (fun c => toLowerCase (email c))
             (contacts (run toLowerCase ops st0))) /\
  NoDup (map email (contacts (run toLowerCase ops st0))).
Proof.
  intros H0.
  assert (H : sound toLowerCase (contacts (run toLowerCase ops st0))).
  { apply run_sound. rewrite H0. apply sound_nil. }
  destruct H as (_ & _ & Hwf & Hk).
  assert (E : map (email_key toLowerCase) (contacts (run toLowerCase ops st0))
              = map toLowerCase
                    (map email (contacts (run toLowerCase ops st0)))).
  { rewrite map_map. apply map_ext_in. intros c Hc.
    rewrite Forall_forall in Hwf. destruct (Hwf c Hc) as (_ & _ & _ & _ & _ & Et & _).
    unfold email_key. rewrite Et. reflexivity. }
  rewrite E in Hk. split.
  - rewrite map_map in Hk. exact Hk.
  - apply NoDup_map_inv in Hk. exact Hk.
Qed.

Lemma emails_distinct_after_any_calls_witness :
  NoDup (map email (contacts (run toLowerCaseASCII
    [Add (contact "Alice" "a@x.com" "111" false);
     Add (contact "Bob" "A@X.COM" "222" true);
     Add (contact "Carol" "c@x.com" "333" true)] initialState))).
Proof.
  apply (emails_distinct_after_any_calls toLowerCaseASCII
           [Add (contact "Alice" "a@x.com" "111" false);
            Add (contact "Bob" "A@X.COM" "222" true);
            Add (contact "Carol" "c@x.com" "333" true)] initialState).
  reflexivity.
Defined.

Lemma emailRegex_accepts_shape_witness :
  email_shape (lit "a.b@x.co.uk") /\ ~ email_shape (lit "a@b@x.com").
Proof.
  split.
  - apply emailRegex_accepts_shape. reflexivity.
  - intros H. apply emailRegex_accepts_shape in H. discriminate H.
Defined.

(** X6.  Of two setPrimary calls in a row only the second counts: the
    result is the one of the second call alone (so a repeated call changes
    nothing more). *)
Theorem setPrimaryContact_last_wins (n m : jsstring) (st : State) :
  setPrimaryContact n (fst (setPrimaryContact m st)) = setPrimaryContact n st.
Proof.
  unfold setPrimaryContact, setContacts. simpl. rewrite map_map. reflexivity.
Qed.

(** X7.  Removing the same name a second time changes nothing, on any
    list. *)
Theorem removeContact_twice (n : jsstring) (st : State) :
  removeContact n (fst (removeContact n st)) = (fst (removeContact n st), []).
Proof.
  apply removeContact_absent_eq.
  unfold removeContact. simpl. fold (keeps n).
  destruct (_ && _); rewrite ?names_set_head; apply filter_keeps_absent.
Qed.



(** X9.  After an accepted add the contact form is reset, so an immediate
    second addContact is rejected with the name-required error and leaves
    the list with the one new entry. *)
Theorem addContact_twice
  (toLowerCase : jsstring -> jsstring) (st : State) :
  snd (addContact toLowerCase st) = [toast_success "Contact added successfully"] ->
  currentContact (fst (addContact toLowerCase st)) = emptyContact /\
  addContact toLowerCase (fst (addContact toLowerCase st))
  = (fst (addContact toLowerCase st), [toast_error name_required]).
Proof.
  intros H.
  destruct (addContact_cases toLowerCase st)
    as [(msg & _ & E) | (_ & _ & _ & E)]; rewrite E in *;
    [discriminate H|].
  split; reflexivity.
Qed.

Lemma addContact_twice_witness :
  let st := setCurrentContact (contact "Alice" "a@x.com" "111" false)
                              initialState in
  contacts (fst (addContact toLowerCaseASCII
                   (fst (addContact toLowerCaseASCII st))))
  = [contact "Alice" "a@x.com" "111" true].
Proof.
  cbv zeta.
  destruct (addContact_twice toLowerCaseASCII
              (setCurrentContact (contact "Alice" "a@x.com" "111" false)
                                 initialState) eq_refl) as [_ E].
  rewrite E. reflexivity.
Defined.

(** X10.  handleSubmit sends the creation request exactly when the contact
    list is non-empty, the buyer's name, ABN, office address and phone
    number are non-empty and the buyer's email matches the pattern; the
    account number plays no part, and nothing is trimmed.  It then sends
    that one request and no notification. *)
Theorem handleSubmit_forwards_iff (st : State) :
  ((exists b, In (mutate b) (snd (handleSubmit st))) <->
   contacts st <> [] /\
   FormData.name (formData st) <> [] /\ FormData.abn (formData st) <> [] /\
   FormData.officeAddress (formData st) <> [] /\
   FormData.phoneNumber (formData st) <> [] /\
   Regex.test emailRegex (FormData.email (formData st)) = true) /\
  ((exists b, In (mutate b) (snd (handleSubmit st))) ->
   handleSubmit st =
   (st, [mutate {| fields := formData st; buyer_contacts := contacts st |}])).
Proof.
  destruct (handleSubmit_cases st) as [(msg & E & Hc) | (Hne & Hv & E)];
    rewrite E; simpl.
  - split.
    + split.
      * intros (b & [Hb | []]). discriminate Hb.
      * intros (Hne & Hv). exfalso. destruct Hc as [Hc | Hc]; [tauto|].
        apply valid_form_iff in Hv. congruence.
    + intros (b & [Hb | []]). discriminate Hb.
  - split; [|reflexivity]. split.
    + intros _. split; [exact Hne | apply valid_form_iff, Hv].
    + intros _. eexists. left. reflexivity.
Qed.

Lemma handleSubmit_forwards_iff_witness :
  let st := {| formData :=
                 {| FormData.name := lit " "; FormData.abn := lit "x";
                    FormData.officeAddress := lit "1 Main St";
                    FormData.email := lit "office@acme.com";
                    FormData.phoneNumber := lit "0400";
                    FormData.accountNumber := [] |};
               contacts := [contact "Alice" "a@x.com" "111" true];
               currentContact := emptyContact |} in
  exists b, In (mutate b) (snd (handleSubmit st)).
Proof.
  apply handleSubmit_forwards_iff. repeat split; discriminate.
Defined.

(** X11.  In every session on the page that starts when the form mounts
    (any inputs, add, the remove and "Set as Primary" buttons of the
    entries shown, submit), the list has no primary when it is empty and
    exactly one when it is not. *)
Theorem session_single_primary
  (toLowerCase : jsstring -> jsstring) (evs : list Event)
  (st : State) (sent : list Effect) :
  play toLowerCase evs initialState = Some (st, sent) ->
  single_primary (contacts st).
Proof.
  intros H.
  destruct (play_kept toLowerCase evs _ _ _ H) as [[[_ Hs] _] _];
    [|exact Hs].
  split; [split; [constructor | reflexivity] | apply sound_nil].
Qed.

Lemma session_single_primary_witness :
  single_primary
    [contact "Alice" "a@x.com" "111" true; contact "Bob" "b@x.com" "222" false].
Proof.
  apply (session_single_primary toLowerCaseASCII
           [InputContact contact_name (lit "Bob");
            InputContact contact_email (lit "b@x.com");
            InputContact contact_phoneNumber (lit "222");
            ClickAddContact;
            InputContact contact_name (lit "Alice");
            InputContact contact_phoneNumber (lit "111");
            InputContact contact_email (lit "a@x.com");
            ClickAddContact;
            ClickSetAsPrimary 0]
           {| formData := formData initialState;
              contacts := [contact "Alice" "a@x.com" "111" true;
                           contact "Bob" "b@x.com" "222" false];
              currentContact := emptyContact |}
           [toast_success "Contact added successfully";
            toast_success "Contact added successfully";
            toast_success "Primary contact updated"]).
  reflexivity.
Defined.

(** X12.  Every creation request sent in such a session carries a
    non-empty contact list with exactly one primary, distinct names and
    entries as addContact stores them. *)
Theorem session_requests_one_primary
  (toLowerCase : jsstring -> jsstring) (evs : list Event)
  (st : State) (sent : list Effect) (b : Buyer) :
  play toLowerCase evs initialState = Some (st, sent) ->
  In (mutate b) sent ->
  count_primary (buyer_contacts b) = 1%nat /\
  NoDup (map name (buyer_contacts b)) /\
  Forall well_formed (buyer_contacts b).
Proof.
  intros H Hb.
  destruct (play_kept toLowerCase evs _ _ _ H) as [_ Hm].
  - split; [split; [constructor | reflexivity] | apply sound_nil].
  - destruct (Hm b Hb) as [[[Hnd Hs] (_ & _ & Hwf & _)] Hne].
    repeat split; auto.
    unfold single_primary in Hs. destruct (buyer_contacts b); congruence.
Qed.

Lemma session_requests_one_primary_witness :
  let l := [contact "Alice" "a@x.com" "111" true] in
  count_primary l = 1%nat /\ NoDup (map name l) /\ Forall well_formed l.
Proof.
  eapply (session_requests_one_primary toLowerCaseASCII
            [SubmitForm;
             InputForm field_name (lit "Acme");
             InputForm field_abn (lit "51824753556");
             InputForm field_officeAddress (lit "1 Main St");
             InputForm field_email (lit "office@acme.com");
             InputForm field_phoneNumber (lit "0400000000");
             InputContact contact_name (lit "Alice ");
             InputContact contact_email (lit "a@x.com");
             InputContact contact_phoneNumber (lit "111");
             ClickAddContact;
             SubmitForm]
            _ _
            {| fields := {| FormData.name := lit "Acme";
                            FormData.abn := lit "51824753556";
                            FormData.officeAddress := lit "1 Main St";
                            FormData.email := lit "office@acme.com";
                            FormData.phoneNumber := lit "0400000000";
                            FormData.accountNumber := [] |};
               buyer_contacts := [contact "Alice" "a@x.com" "111" true] |}).
  - vm_compute. reflexivity.
  - simpl. right. right. left. reflexivity.
Defined.

(** X13.  The inputs of the buyer form are independent: changes of two
    different fields give the same state in either order, and a change of
    a field replaces an earlier change of the same field. *)
Theorem handleChange_commutes
  (f g : FormField) (v w : jsstring) (st : State) :
  (f <> g ->
   handleChange f v (handleChange g w st)
   = handleChange g w (handleChange f v st)) /\
  handleChange f v (handleChange f w st) = handleChange f v st.
Proof.
  split.
  - intros H. destruct f, g; try congruence; reflexivity.
  - destruct f; reflexivity.
Qed.

Lemma handleChange_commutes_witness :
  handleChange field_abn (lit "51") (handleChange field_name (lit "Acme") initialState)
  = handleChange field_name (lit "Acme") (handleChange field_abn (lit "51") initialState).
Proof.
  apply (handleChange_commutes field_abn field_name). discriminate.
Defined.

(** X14.  The inputs of the contact form are independent as well: two
    different text fields, or a text field and the primary check box, can
    be changed in either order, and none of them touches the contact list
    or the buyer form. *)
Theorem handleContactChange_commutes
  (f g : ContactField) (v w : jsstring) (checked : bool) (st : State) :
  (f <> g ->
   handleContactChange f v (handleContactChange g w st)
   = handleContactChange g w (handleContactChange f v st)) /\
  handlePrimaryChange checked (handleContactChange f v st)
  = handleContactChange f v (handlePrimaryChange checked st) /\
  contacts (handlePrimaryChange checked (handleContactChange f v st))
  = contacts st /\
  formData (handlePrimaryChange checked (handleContactChange f v st))
  = formData st.
Proof.
  split; [intros H; destruct f, g; try congruence; reflexivity|].
  repeat split; destruct f; reflexivity.
Qed.

Lemma handleContactChange_commutes_witness :
  handleContactChange contact_email (lit "a@x.com")
    (handleContactChange contact_name (lit "Alice") initialState)
  = handleContactChange contact_name (lit "Alice")
      (handleContactChange contact_email (lit "a@x.com") initialState).
Proof.
  apply (handleContactChange_commutes contact_email contact_name _ _ true).
  discriminate.
Defined.

(** X15.  On any list, also one that holds no primary or several, an
    accepted add with the primary box checked leaves exactly one primary:
    the new entry at the head. *)
Theorem addContact_primary_is_sole
  (toLowerCase : jsstring -> jsstring) (st : State) :
  snd (addContact toLowerCase st) = [toast_success "Contact added successfully"] ->
  isPrimary (currentContact st) = Some true ->
  count_primary (contacts (fst (addContact toLowerCase st))) = 1%nat /\
  hd_error (contacts (fst (addContact toLowerCase st)))
  = Some (normalized (currentContact st) true).
Proof.
  intros H Hp.
  destruct (addContact_cases toLowerCase st)
    as [(msg & _ & E) | (_ & _ & _ & E)]; rewrite E in *;
    [discriminate H|].
  rewrite Hp. simpl. split; [|reflexivity].
  rewrite count_primary_cons, count_primary_clear. reflexivity.
Qed.

Lemma addContact_primary_is_sole_witness :
  let st := {| formData := formData initialState;
               contacts := [contact "Bob" "b@x.com" "222" true;
                            contact "Alice" "a@x.com" "111" true];
               currentContact := contact "Carol" "c@x.com" "333" true |} in
  count_primary (contacts (fst (addContact toLowerCaseASCII st))) = 1%nat.
Proof.
  apply (addContact_primary_is_sole toLowerCaseASCII
           {| formData := formData initialState;
              contacts := [contact "Bob" "b@x.com" "222" true;
                           contact "Alice" "a@x.com" "111" true];
              currentContact := contact "Carol" "c@x.com" "333" true |});
    reflexivity.
Defined.

(** X16.  addContact accepts the candidate exactly when the trimmed name
    and the trimmed phone number are non-empty, the email as entered
    matches the pattern, no entry has the trimmed name, and no entry's
    trimmed, lower-cased email equals the candidate's. *)
Theorem addContact_accepts_iff
  (toLowerCase : jsstring -> jsstring) (st : State) :
  snd (addContact toLowerCase st) = [toast_success "Contact added successfully"]
  <->
  trim (name (currentContact st)) <> [] /\
  trim (phoneNumber (currentContact st)) <> [] /\
  Regex.test emailRegex (email (currentContact st)) = true /\
  (forall c, In c (contacts st) -> name c <> trim (name (currentContact st))) /\
  (forall c, In c (contacts st) ->
             toLowerCase (trim (email c))
             <> toLowerCase (trim (email (currentContact st)))).
Proof.
  split.
  - intros H.
    destruct (addContact_cases toLowerCase st)
      as [(msg & _ & E) | (Hv & Hn & He & _)];
      [rewrite E in H; discriminate H|].
    apply valid_candidate_iff in Hv. destruct Hv as (? & ? & ?).
    repeat split; auto.
    + apply not_in_names, existsb_name_false, Hn.
    + intros c Hc Ek. apply (existsb_key_false toLowerCase) in He.
      apply He, in_map_iff. exists c. auto.
  - intros (Hn & Hp & He & Hdn & Hde).
    assert (Hv : valid_candidate (currentContact st) = true)
      by (apply valid_candidate_iff; auto).
    unfold valid_candidate in Hv.
    repeat (apply andb_true_iff in Hv; destruct Hv as [Hv ?]).
    apply not_in_names, existsb_name_false in Hdn.
    assert (Hk : existsb
                   (fun c => jseqb (toLowerCase (trim (email c)))
                                   (toLowerCase (trim (email (currentContact st)))))
                   (contacts st) = false).
    { apply existsb_key_false. rewrite in_map_iff.
      intros (c & Ek & Hc). exact (Hde c Hc Ek). }
    unfold addContact. rewrite Hv, Hdn, Hk.
    repeat match goal with H : _ = true |- _ => rewrite H; clear H end.
    reflexivity.
Qed.

Lemma addContact_accepts_iff_witness :
  snd (addContact toLowerCaseASCII
         {| formData := formData initialState;
            contacts := [contact "Alice" "a@x.com" "111" true];
            currentContact := contact "Bob" "b@x.com" "222" false |})
  = [toast_success "Contact added successfully"].
Proof.
  apply addContact_accepts_iff. simpl. repeat split; try discriminate.
  - intros c [<- | []]. discriminate.
  - intros c [<- | []]. discriminate.
Defined.

Lemma filter_keeps_position (l : list ContactDetails) :
  forall i c,
    NoDup (map name l) -> nth_error l i = Some c ->
    filter (keeps (name c)) l = firstn i l ++ skipn (S i) l.
Proof.
  induction l as [|x l IH]; intros [|i] c Hnd Hn; simpl in Hn; try discriminate;
    inversion Hnd as [|? ? Hx Hl]; subst.
  - injection Hn as ->. simpl. unfold keeps at 1. rewrite jseqb_refl. simpl.
    apply filter_absent, Hx.
  - simpl. unfold keeps at 1.
    destruct (jseqb (name x) (name c)) eqn:E.
    + apply jseqb_eq in E. exfalso. apply Hx. rewrite E.
      apply in_map, (nth_error_In _ _ Hn).
    + simpl. f_equal. apply IH; assumption.
Qed.

Lemma identity_set_head (l : list ContactDetails) :
  map identity (set_head_primary l) = map identity l.
Proof. destruct l; reflexivity. Qed.

(** X17.  On a list with distinct names the remove button of the i-th
    entry removes that entry and no other: the entries left are the ones
    before and after position i, in their order (only the flag of the head
    may change). *)
Theorem removeContact_by_position
  (st : State) (i : nat) (c : ContactDetails) :
  NoDup (map name (contacts st)) ->
  nth_error (contacts st) i = Some c ->
  map identity (contacts (fst (removeContact (name c) st)))
  = map identity (firstn i (contacts st) ++ skipn (S i) (contacts st)) /\
  length (contacts (fst (removeContact (name c) st)))
  = (length (contacts st) - 1)%nat.
Proof.
  intros Hnd Hn.
  assert (E : map identity (contacts (fst (removeContact (name c) st)))
              = map identity (firstn i (contacts st) ++ skipn (S i) (contacts st))).
  { rewrite <- (filter_keeps_position _ _ _ Hnd Hn).
    unfold removeContact. simpl. fold (keeps (name c)).
    destruct (_ && _); rewrite ?identity_set_head; reflexivity. }
  split; [exact E|].
  apply (f_equal (@length _)) in E. rewrite !length_map in E. rewrite E.
  rewrite length_app, length_firstn, length_skipn.
  assert (i < length (contacts st))%nat
    by (apply nth_error_Some; congruence).
  lia.
Qed.

Lemma removeContact_by_position_witness :
  let st := setContacts [contact "Carol" "c@x.com" "333" false;
                         contact "Bob" "b@x.com" "222" true;
                         contact "Alice" "a@x.com" "111" false] initialState in
  map identity (contacts (fst (removeContact (lit "Bob") st)))
  = map identity [contact "Carol" "c@x.com" "333" false;
                  contact "Alice" "a@x.com" "111" false].
Proof.
  apply (removeContact_by_position
           (setContacts [contact "Carol" "c@x.com" "333" false;
                         contact "Bob" "b@x.com" "222" true;
                         contact "Alice" "a@x.com" "111" false] initialState)
           1 (contact "Bob" "b@x.com" "222" true)).
  - simpl. repeat constructor; simpl; intuition discriminate.
  - reflexivity.
Defined.

(** X18.  On a list with distinct names the "Set as Primary" button of the
    i-th entry makes that entry the primary and no other: afterwards the
    entry at position j has isPrimary = true exactly when j = i, and
    every entry keeps its name, email and phone number. *)
Theorem setPrimaryContact_by_position
  (st : State) (i : nat) (c : ContactDetails) :
  NoDup (map name (contacts st)) ->
  nth_error (contacts st) i = Some c ->
  forall j x,
    nth_error (contacts st) j = Some x ->
    nth_error (contacts (fst (setPrimaryContact (name c) st))) j
    = Some (with_isPrimary (j =? i)%nat x).
Proof.
  intros Hnd Hn j x Hj. simpl.
  rewrite nth_error_map, Hj. simpl. f_equal. f_equal.
  destruct (Nat.eqb_spec j i) as [-> | Hne].
  - apply jseqb_eq. congruence.
  - apply jseqb_neq. intros E. apply Hne.
    rewrite NoDup_nth_error in Hnd. apply Hnd.
    + rewrite length_map. apply nth_error_Some. congruence.
    + rewrite !nth_error_map, Hj, Hn. simpl. congruence.
Qed.

Lemma setPrimaryContact_by_position_witness :
  let st := setContacts [contact "Carol" "c@x.com" "333" false;
                         contact "Bob" "b@x.com" "222" true;
                         contact "Alice" "a@x.com" "111" false] initialState in
  nth_error (contacts (fst (setPrimaryContact (lit "Alice") st))) 1
  = Some (contact "Bob" "b@x.com" "222" false).
Proof.
  apply (setPrimaryContact_by_position
           (setContacts [contact "Carol" "c@x.com" "333" false;
                         contact "Bob" "b@x.com" "222" true;
                         contact "Alice" "a@x.com" "111" false] initialState)
           2 (contact "Alice" "a@x.com" "111" false)
           ltac:(simpl; repeat constructor; simpl; intuition discriminate)
           eq_refl 1 (contact "Bob" "b@x.com" "222" true) eq_refl).
Defined.
